(** * MemoryConfig: the allocation pool of [app.py]

    A shallow embedding of the Flask application [app.py]: the global
    pool [_chunks], the allocator [_alloc_mb], the summation
    [_current_mb] and the request handlers [mem_status], [mem_add],
    [mem_set], [mem_free], [mem_clear] and [health].

    Python lists keep their Python order (index 0 first, [append] and
    [pop] work at the end).  A [bytearray] is never read or written by
    the program, only its length is observed, so it is modelled by its
    length.  Exceptions are explicit: a computation returns, raises, or
    runs out of fuel (the model of a loop that does not terminate). *)

From Stdlib Require Import ZArith List Bool Lia.
From Stdlib Require String Ascii DecimalString.
Import ListNotations String.StringSyntax.

Abbreviation string := String.string.

Local Open Scope string_scope.
Local Open Scope list_scope.
Local Open Scope Z_scope.

(** ** Python values *)

(** The exceptions the program can meet. *)
Inductive exn : Type :=
| ValueError
| MemoryError.

(** Outcome of a computation that may raise or loop. *)
Inductive result (A : Type) : Type :=
| Ok (a : A)
| Raised (e : exn)
| OutOfFuel.

Arguments Ok {A} a.
Arguments Raised {A} e.
Arguments OutOfFuel {A}.

(** [bytearray(n)]: [n] zero bytes. *)
Record bytearray : Type := { len : Z }.

Definition group : Type := list bytearray.
Definition pool : Type := list group.

(** [l.pop()] on a non-empty list: the list without its last element,
    and that element.  [None] on the empty list. *)
Definition list_pop {A : Type} (l : list A) : option (list A * A) :=
  match rev l with
  | [] => None
  | x :: r => Some (rev r, x)
  end.

(** [sum(...)] over integers. *)
Definition sum (l : list Z) : Z := fold_right Z.add 0 l.

(** [str(z)] for an integer. *)
Definition str (z : Z) : string := DecimalString.NilZero.string_of_int (Z.to_int z).

(** Memory oracle of one request: [oom k = true] when the [k]-th call of
    [bytearray] made while serving the request raises [MemoryError]. *)
Definition oracle : Type := nat -> bool.

Definition enough_memory : oracle := fun _ => false.

(** [bytearray(n)] as the [k]-th allocation of a request. *)
Definition bytearray_new (oom : oracle) (k : nat) (n : Z) : result bytearray :=
  if n <? 0 then Raised ValueError
  else if oom k then Raised MemoryError
  else Ok {| len := n |}.

(** ** The pool *)

Definition CHUNK_MB_DEFAULT : Z := 8.

(** The loop of [_alloc_mb]; [k] counts the allocations made so far. *)
Fixpoint alloc_loop (fuel : nat) (oom : oracle) (k : nat) (chunk_mb : Z)
    (blocks : group) (remain : Z) : result group :=
  if remain >? 0 then
    match fuel with
    | O => OutOfFuel
    | S fuel' =>
        let take := Z.min chunk_mb remain in
        match bytearray_new oom k (take * 1024 * 1024) with
        | Ok b => alloc_loop fuel' oom (S k) chunk_mb (blocks ++ [b]) (remain - take)
        | Raised e => Raised e
        | OutOfFuel => OutOfFuel
        end
    end
  else Ok blocks.

(** [_alloc_mb(mb, chunk_mb)].  With [chunk_mb >= 1] every turn of the
    loop lowers [remain] by at least one, so [mb] turns are enough. *)
Definition _alloc_mb (oom : oracle) (mb chunk_mb : Z) : result group :=
  alloc_loop (Z.to_nat mb) oom O chunk_mb [] mb.

(** [_current_mb()]. *)
Definition _current_mb (_chunks : pool) : Z :=
  sum (map len (concat _chunks)) / (1024 * 1024).

(** Inner loop of [mem_set] (lines 75-77) and of [mem_free] (lines
    97-99): [while group and to_free > 0]. *)
Fixpoint drain_group (fuel : nat) (g : group) (to_free : Z)
    : option (group * Z) :=
  match list_pop g with
  | None => Some (g, to_free)
  | Some (g', b) =>
      if to_free >? 0 then
        match fuel with
        | O => None
        | S fuel' => drain_group fuel' g' (to_free - len b / (1024 * 1024))
        end
      else Some (g, to_free)
  end.

(** Outer loop of [mem_set] (lines 73-79) and of [mem_free] (lines
    95-101): [while to_free > 0 and _chunks]; the two handlers carry
    the same loop, under the names [to_free] and [remain]. *)
Fixpoint drain_pool (fuel : nat) (_chunks : pool) (to_free : Z)
    : option (pool * Z) :=
  if to_free >? 0 then
    match list_pop _chunks with
    | None => Some (_chunks, to_free)
    | Some (rest, g) =>
        match fuel with
        | O => None
        | S fuel' =>
            match drain_group (length g) g to_free with
            | None => None
            | Some ([], to_free') => drain_pool fuel' rest to_free'
            | Some (g', to_free') => drain_pool fuel' (rest ++ [g']) to_free'
            end
        end
    end
  else Some (_chunks, to_free).

(** The release loop with the fuel the handlers run it with: one turn
    of the outer loop per group. *)
Definition release (_chunks : pool) (to_free : Z) : result pool :=
  match drain_pool (length _chunks) _chunks to_free with
  | Some (_chunks', _) => Ok _chunks'
  | None => OutOfFuel
  end.

(** ** Requests and responses *)

(** The values the handlers put in a JSON body. *)
Inductive json : Type :=
| JBool (b : bool)
| JInt (z : Z)
| JStr (s : string).

Inductive payload : Type :=
| Json (fields : list (string * json))
| Text (s : string).

Record response : Type := { body : payload; status : Z }.

(** [jsonify(k1=v1, ...)], returned alone (status 200) or in a pair
    with a status. *)
Definition jsonify (fields : list (string * json)) : payload := Json fields.

Definition reply (b : payload) : response := {| body := b; status := 200 |}.
Definition reply_with (b : payload) (code : Z) : response :=
  {| body := b; status := code |}.

(** The query string of a request, and [request.args.get(key, default)]. *)
Definition query : Type := list (string * string).

Fixpoint args_get (args : query) (key default : string) : string :=
  match args with
  | [] => default
  | (k, v) :: args' => if String.eqb k key then v else args_get args' key default
  end.

(** What serving a request leaves: the outcome of the handler and the
    pool after it. *)
Definition served : Type := (result response * pool)%type.

Section Handlers.

(** Python's [int] on a string: [None] when it raises [ValueError]. *)
Variable int : string -> option Z.

(** [GET /]. *)
Definition mem_status (_chunks : pool) : served :=
  (Ok (reply (jsonify
     [("allocated_mb", JInt (_current_mb _chunks));
      ("groups", JInt (Z.of_nat (length _chunks)));
      ("tip", JStr "搭配 docker stats 觀察容器 RSS/使用率")])),
   _chunks).

(** [POST /mem/add]. *)
Definition mem_add (oom : oracle) (args : query) (_chunks : pool) : served :=
  match int (args_get args "mb" "100") with
  | None => (Ok (reply_with (jsonify [("error", JStr "參數需為整數")]) 400), _chunks)
  | Some mb =>
    match int (args_get args "chunk" (str CHUNK_MB_DEFAULT)) with
    | None => (Ok (reply_with (jsonify [("error", JStr "參數需為整數")]) 400), _chunks)
    | Some chunk =>
      if (mb <=? 0) || (chunk <=? 0) then
        (Ok (reply_with (jsonify [("error", JStr "mb/chunk 必須 > 0")]) 400), _chunks)
      else if mb >? 4096 then
        (Ok (reply_with
               (jsonify [("error", JStr "單次追加上限 4096MB，可自行放寬")]) 400),
         _chunks)
      else
        match _alloc_mb oom mb chunk with
        | Ok blocks =>
            let _chunks' := _chunks ++ [blocks] in
            let total := _current_mb _chunks' in
            (Ok (reply (jsonify
               [("ok", JBool true); ("added_mb", JInt mb);
                ("chunk_mb", JInt chunk); ("total_mb", JInt total)])),
             _chunks')
        | Raised e => (Raised e, _chunks)
        | OutOfFuel => (OutOfFuel, _chunks)
        end
    end
  end.

(** [POST /mem/set]. *)
Definition mem_set (oom : oracle) (args : query) (_chunks : pool) : served :=
  match int (args_get args "mb" "0") with
  | None => (Ok (reply_with (jsonify [("error", JStr "參數需為整數")]) 400), _chunks)
  | Some target =>
    if target <? 0 then
      (Ok (reply_with (jsonify [("error", JStr "mb 必須 >= 0")]) 400), _chunks)
    else
      let curr := _current_mb _chunks in
      if target =? curr then
        (Ok (reply (jsonify
           [("ok", JBool true); ("total_mb", JInt curr); ("note", JStr "已達目標")])),
         _chunks)
      else if target >? curr then
        match _alloc_mb oom (target - curr) CHUNK_MB_DEFAULT with
        | Ok blocks =>
            let _chunks' := _chunks ++ [blocks] in
            (Ok (reply (jsonify
               [("ok", JBool true); ("total_mb", JInt (_current_mb _chunks'))])),
             _chunks')
        | Raised e => (Raised e, _chunks)
        | OutOfFuel => (OutOfFuel, _chunks)
        end
      else
        match release _chunks (curr - target) with
        | Ok _chunks' =>
            (Ok (reply (jsonify
               [("ok", JBool true); ("total_mb", JInt (_current_mb _chunks'))])),
             _chunks')
        | Raised e => (Raised e, _chunks)
        | OutOfFuel => (OutOfFuel, _chunks)
        end
  end.

(** [POST /mem/free]. *)
Definition mem_free (args : query) (_chunks : pool) : served :=
  match int (args_get args "mb" "0") with
  | None => (Ok (reply_with (jsonify [("error", JStr "參數需為整數")]) 400), _chunks)
  | Some mb =>
    if mb <=? 0 then
      (Ok (reply_with (jsonify [("error", JStr "mb 必須 > 0")]) 400), _chunks)
    else
      match release _chunks mb with
      | Ok _chunks' =>
          (Ok (reply (jsonify
             [("ok", JBool true); ("freed_request_mb", JInt mb);
              ("total_mb", JInt (_current_mb _chunks'))])),
           _chunks')
      | Raised e => (Raised e, _chunks)
      | OutOfFuel => (OutOfFuel, _chunks)
      end
  end.

(** [POST /mem/clear]. *)
Definition mem_clear (_chunks : pool) : served :=
  let _chunks' : pool := [] in
  (Ok (reply (jsonify
     [("ok", JBool true); ("total_mb", JInt (_current_mb _chunks'))])),
   _chunks').

(** [GET /health]. *)
Definition health (_chunks : pool) : served :=
  (Ok (reply_with (Text "ok") 200), _chunks).

(** The routes of the application. *)
Inductive route : Type :=
| GetRoot
| PostMemAdd
| PostMemSet
| PostMemFree
| PostMemClear
| GetHealth.

Definition serve (r : route) (oom : oracle) (args : query) (_chunks : pool)
    : served :=
  match r with
  | GetRoot => mem_status _chunks
  | PostMemAdd => mem_add oom args _chunks
  | PostMemSet => mem_set oom args _chunks
  | PostMemFree => mem_free args _chunks
  | PostMemClear => mem_clear _chunks
  | GetHealth => health _chunks
  end.

End Handlers.

(** A reader of signed decimal numerals, [[+-]?[0-9]+]; on these
    strings it agrees with Python's [int].  It serves to run the
    handlers on concrete requests; the general results below hold for
    every reader. *)
Definition digit_of (c : Ascii.ascii) : option Z :=
  let n := Z.of_N (Ascii.N_of_ascii c) in
  if (48 <=? n) && (n <=? 57) then Some (n - 48) else None.

Fixpoint digits (s : string) (acc : Z) : option Z :=
  match s with
  | String.EmptyString => Some acc
  | String.String c s' =>
      match digit_of c with
      | Some d => digits s' (10 * acc + d)
      | None => None
      end
  end.

Definition unsigned (s : string) : option Z :=
  match s with
  | String.EmptyString => None
  | _ => digits s 0
  end.

Definition int_decimal (s : string) : option Z :=
  match s with
  | String.String c s' =>
      if Ascii.eqb c (Ascii.ascii_of_nat 45) then option_map Z.opp (unsigned s')
      else if Ascii.eqb c (Ascii.ascii_of_nat 43) then unsigned s'
      else unsigned s
  | String.EmptyString => None
  end.

(** ** Observations on a response *)

Fixpoint lookup (key : string) (fields : list (string * json)) : option json :=
  match fields with
  | [] => None
  | (k, v) :: fields' => if String.eqb k key then Some v else lookup key fields'
  end.

(** A field of the JSON body of a response. *)
Definition field (key : string) (r : response) : option json :=
  match body r with
  | Json fields => lookup key fields
  | Text _ => None
  end.

(** The error kinds of the specification.  The handlers tell them apart
    by the reason string only; all of them use status 400. *)
Inductive error_kind : Type :=
| InvalidArgument
| LimitExceeded.

Definition kind_of_reason (reason : string) : option error_kind :=
  if String.eqb reason "參數需為整數" then Some InvalidArgument
  else if String.eqb reason "mb/chunk 必須 > 0" then Some InvalidArgument
  else if String.eqb reason "mb 必須 >= 0" then Some InvalidArgument
  else if String.eqb reason "mb 必須 > 0" then Some InvalidArgument
  else if String.eqb reason "單次追加上限 4096MB，可自行放寬" then Some LimitExceeded
  else None.

(** The error a response reports, if it is a structured rejection: a
    JSON body with an [error] reason and a client-error status. *)
Definition rejection (r : response) : option error_kind :=
  if status r =? 400 then
    match field "error" r with
    | Some (JStr reason) => kind_of_reason reason
    | _ => None
    end
  else None.

(** A success: status 200 and [ok=True] in the body. *)
Definition succeeded (r : response) : bool :=
  (status r =? 200) &&
  match field "ok" r with
  | Some (JBool true) => true
  | _ => false
  end.

(** ** Invariants of the pool *)

(** The size of a block in megabytes, as the release loops count it. *)
Definition mb_of (b : bytearray) : Z := len b / (1024 * 1024).

(** A block of the data model: a positive multiple of 1 MiB. *)
Definition block_ok (b : bytearray) : Prop :=
  exists n : Z, 0 < n /\ len b = n * (1024 * 1024).

Definition no_empty_group (_chunks : pool) : Prop :=
  Forall (fun g : group => g <> []) _chunks.

Definition pool_ok (_chunks : pool) : Prop :=
  no_empty_group _chunks /\ Forall (Forall block_ok) _chunks.

(** The pools the application can hold: it starts empty and every
    request served, whether its handler returns or raises, moves it
    on. *)
Inductive reachable (int : string -> option Z) : pool -> Prop :=
| reach_start : reachable int []
| reach_serve (r : route) (oom : oracle) (args : query)
    (_chunks _chunks' : pool) (out : result response) :
    reachable int _chunks ->
    serve int r oom args _chunks = (out, _chunks') ->
    reachable int _chunks'.

(** [new] is what is left of [old] after popping blocks from its end:
    whole groups off the end, and then blocks off the end of the last
    group that stays, which keeps at least one block. *)
Definition lifo_cut (new old : pool) : Prop :=
  (exists later : pool, old = new ++ later) \/
  (exists (gs : pool) (g dropped : group) (later : pool),
      g <> [] /\ dropped <> [] /\
      old = gs ++ (g ++ dropped) :: later /\ new = gs ++ [g]).

(** Total size of a pool in megabytes, counted block by block. *)
Definition sum_mb (g : group) : Z := sum (map mb_of g).
Definition pool_mb (_chunks : pool) : Z := sum_mb (concat _chunks).

(** Two handlers end the same way: both reply, with the same status,
    the same success or rejection and the same reported total, or both
    raise the same exception.  A run out of fuel matches nothing. *)
Definition same_outcome (a b : result response) : Prop :=
  match a, b with
  | Ok ra, Ok rb =>
      status ra = status rb /\ succeeded ra = succeeded rb /\
      rejection ra = rejection rb /\ field "total_mb" ra = field "total_mb" rb
  | Raised ea, Raised eb => ea = eb
  | _, _ => False
  end.

(** The requests the specification calls invalid: a parameter that
    [int] refuses, [mb <= 0] or [chunk <= 0] for [/mem/add], [mb <= 0]
    for [/mem/free], [mb < 0] for [/mem/set]. *)
Definition invalid (int : string -> option Z) (r : route) (args : query) : Prop :=
  match r with
  | PostMemAdd =>
      int (args_get args "mb" "100") = None \/
      int (args_get args "chunk" (str CHUNK_MB_DEFAULT)) = None \/
      (exists mb, int (args_get args "mb" "100") = Some mb /\ mb <= 0) \/
      (exists chunk,
          int (args_get args "chunk" (str CHUNK_MB_DEFAULT)) = Some chunk /\
          chunk <= 0)
  | PostMemFree =>
      int (args_get args "mb" "0") = None \/
      (exists mb, int (args_get args "mb" "0") = Some mb /\ mb <= 0)
  | PostMemSet =>
      int (args_get args "mb" "0") = None \/
      (exists target, int (args_get args "mb" "0") = Some target /\ target < 0)
  | _ => False
  end.

(** What a client sees of a pool and of a reply: the total and the
    number of groups [GET /] reports, and the total a handler reports. *)
Definition allocated_mb (_chunks : pool) : option json :=
  match fst (mem_status _chunks) with
  | Ok r => field "allocated_mb" r
  | _ => None
  end.

Definition groups (_chunks : pool) : option json :=
  match fst (mem_status _chunks) with
  | Ok r => field "groups" r
  | _ => None
  end.

Definition total_mb (out : result response) : option json :=
  match out with
  | Ok r => field "total_mb" r
  | _ => None
  end.

(** The scenario of the specification, served with memory to spare:
    [/mem/add?mb=300&chunk=8], [/mem/add?mb=100], [/mem/free?mb=250],
    [/mem/clear], and after each step the total the handler reports
    and the number of groups [GET /] reports. *)
Definition scenario : list (option json * option json) :=
  let p0 : pool := [] in
  let '(r1, p1) :=
    mem_add int_decimal enough_memory [("mb", "300"); ("chunk", "8")] p0 in
  let '(r2, p2) := mem_add int_decimal enough_memory [("mb", "100")] p1 in
  let '(r3, p3) := mem_free int_decimal [("mb", "250")] p2 in
  let '(r4, p4) := mem_clear p3 in
  [(total_mb r1, groups p1); (total_mb r2, groups p2);
   (total_mb r3, groups p3); (total_mb r4, groups p4)].

(** A pool to run the handlers on: a group of 8 MB and 4 MB, then a
    group of 8 MB. *)
Definition sample_pool : pool :=
  [[{| len := 8 * 1024 * 1024 |}; {| len := 4 * 1024 * 1024 |}];
   [{| len := 8 * 1024 * 1024 |}]].

(** A memory that refuses the second allocation of a request. *)
Definition second_fails : oracle := fun k => Nat.eqb k 1.

(** ** Shapes of groups and pools *)

(** A block of [n] megabytes, as [_alloc_mb] allocates it. *)
Definition block_mb (n : Z) : bytearray := {| len := n * 1024 * 1024 |}.

(** The group that holds [mb] megabytes in blocks of [chunk_mb]: full
    blocks, then one smaller block for what is left over. *)
Definition layout (mb chunk_mb : Z) : group :=
  repeat (block_mb chunk_mb) (Z.to_nat (mb / chunk_mb)) ++
  (if mb mod chunk_mb =? 0 then [] else [block_mb (mb mod chunk_mb)]).

(** Every block of the pool holds exactly [c] megabytes. *)
Definition uniform (c : Z) (_chunks : pool) : Prop :=
  Forall (Forall (fun b : bytearray => len b = c * (1024 * 1024))) _chunks.

(** No block of the pool counts for more than [m] megabytes. *)
Definition blocks_at_most (m : Z) (_chunks : pool) : Prop :=
  Forall (Forall (fun b : bytearray => mb_of b <= m)) _chunks.

(** A handler did not report success: it raised, or its reply is not a
    success reply. *)
Definition not_a_success (out : result response) : Prop :=
  match out with
  | Ok r => succeeded r = false
  | _ => True
  end.

(** A pool of blocks of 4 MB: a group of two, then a group of one. *)
Definition uniform_pool : pool := [[block_mb 4; block_mb 4]; [block_mb 4]].

(** * Properties *)

(** ** Lists and sums *)

Lemma list_pop_nil (A : Type) : list_pop (@nil A) = None.
Proof. reflexivity. Qed.

Lemma list_pop_snoc (A : Type) (l : list A) (x : A) :
  list_pop (l ++ [x]) = Some (l, x).
Proof.
  unfold list_pop. rewrite rev_app_distr. simpl.
  now rewrite rev_involutive.
Qed.

Lemma sum_app (l1 l2 : list Z) : sum (l1 ++ l2) = sum l1 + sum l2.
Proof.
  unfold sum. induction l1 as [|x l1 IH]; simpl; [reflexivity | lia].
Qed.

Lemma sum_mb_app (g1 g2 : group) : sum_mb (g1 ++ g2) = sum_mb g1 + sum_mb g2.
Proof. unfold sum_mb. now rewrite map_app, sum_app. Qed.

Lemma sum_mb_snoc (g : group) (b : bytearray) :
  sum_mb (g ++ [b]) = sum_mb g + mb_of b.
Proof. rewrite sum_mb_app. unfold sum_mb, sum. simpl. lia. Qed.

Lemma pool_mb_app (p1 p2 : pool) : pool_mb (p1 ++ p2) = pool_mb p1 + pool_mb p2.
Proof. unfold pool_mb. now rewrite concat_app, sum_mb_app. Qed.

Lemma pool_mb_snoc (p : pool) (g : group) :
  pool_mb (p ++ [g]) = pool_mb p + sum_mb g.
Proof.
  rewrite pool_mb_app. unfold pool_mb. simpl. now rewrite app_nil_r.
Qed.

(** ** Blocks *)

Lemma block_ok_mb (b : bytearray) :
  block_ok b -> 0 < mb_of b /\ len b = mb_of b * (1024 * 1024).
Proof.
  intros [n [Hn Hlen]]. unfold mb_of. rewrite Hlen.
  rewrite Z.div_mul by lia. split; [assumption | reflexivity].
Qed.

Lemma sum_mb_nonneg (g : group) : Forall block_ok g -> 0 <= sum_mb g.
Proof.
  induction 1 as [|b g Hb _ IH]; unfold sum_mb, sum in *; simpl; [lia|].
  apply block_ok_mb in Hb. lia.
Qed.

Lemma sum_mb_pos (g : group) : Forall block_ok g -> g <> [] -> 0 < sum_mb g.
Proof.
  intros Hg Hne. destruct g as [|b g]; [congruence|].
  inversion Hg as [|? ? Hb Hg']; subst.
  apply block_ok_mb in Hb. apply sum_mb_nonneg in Hg'.
  unfold sum_mb, sum in *. simpl. lia.
Qed.

Lemma sum_len_mb (g : group) :
  Forall block_ok g -> sum (map len g) = sum_mb g * (1024 * 1024).
Proof.
  induction 1 as [|b g Hb _ IH]; unfold sum_mb, sum in *; simpl; [reflexivity|].
  apply block_ok_mb in Hb. lia.
Qed.

Lemma Forall_concat (A : Type) (P : A -> Prop) (ll : list (list A)) :
  Forall (Forall P) ll -> Forall P (concat ll).
Proof.
  induction 1 as [|l ll Hl _ IH]; simpl; [constructor|].
  apply Forall_app. split; assumption.
Qed.

(** On a pool of well-formed blocks the reported total is the number
    of megabytes counted block by block. *)
Lemma current_mb_pool_mb (_chunks : pool) :
  Forall (Forall block_ok) _chunks -> _current_mb _chunks = pool_mb _chunks.
Proof.
  intros H. unfold _current_mb, pool_mb.
  rewrite sum_len_mb by now apply Forall_concat.
  apply Z.div_mul. lia.
Qed.

Lemma pool_mb_nonneg (_chunks : pool) :
  Forall (Forall block_ok) _chunks -> 0 <= pool_mb _chunks.
Proof. intros H. apply sum_mb_nonneg. now apply Forall_concat. Qed.

Lemma pool_ok_nil : pool_ok [].
Proof. split; constructor. Qed.

Lemma pool_ok_snoc (_chunks : pool) (g : group) :
  pool_ok _chunks -> g <> [] -> Forall block_ok g -> pool_ok (_chunks ++ [g]).
Proof.
  intros [Hne Hok] Hg Hb. split.
  - apply Forall_app. split; [assumption | now constructor].
  - apply Forall_app. split; [assumption | now constructor].
Qed.

(** A well-formed pool that holds nothing has no group. *)
Lemma pool_ok_empty (_chunks : pool) :
  pool_ok _chunks -> pool_mb _chunks <= 0 -> _chunks = [].
Proof.
  intros [Hne Hok] Hle. destruct _chunks as [|g p]; [reflexivity | exfalso].
  inversion Hne as [|? ? Hg Hne']; inversion Hok as [|? ? Hbg Hok']; subst.
  change (g :: p) with ([g] ++ p) in Hle. rewrite pool_mb_app in Hle.
  pose proof (pool_mb_nonneg p Hok') as Hp.
  pose proof (sum_mb_pos g Hbg Hg) as Hpos.
  unfold pool_mb in Hle at 1. simpl in Hle. rewrite app_nil_r in Hle. lia.
Qed.

(** The total after one more group of [mb] megabytes. *)
Lemma current_mb_snoc (_chunks : pool) (g : group) :
  Forall block_ok g ->
  _current_mb (_chunks ++ [g]) = _current_mb _chunks + sum_mb g.
Proof.
  intros Hg. unfold _current_mb.
  rewrite concat_app, map_app, sum_app. simpl. rewrite app_nil_r.
  rewrite (sum_len_mb g Hg). apply Z.div_add. lia.
Qed.

(** ** The allocator *)

Lemma bytearray_new_cases (oom : oracle) (k : nat) (n : Z) :
  0 <= n ->
  bytearray_new oom k n =
    if oom k then Raised MemoryError else Ok {| len := n |}.
Proof.
  intros Hn. unfold bytearray_new.
  destruct (n <? 0) eqn:E; [apply Z.ltb_lt in E; lia | reflexivity].
Qed.

(** Whatever the memory does, a group that [_alloc_mb] returns extends
    the blocks built so far with well-formed blocks that add up to
    [remain], and is not empty when something was asked for. *)
Lemma alloc_loop_inv (fuel : nat) (oom : oracle) (chunk_mb : Z) :
  0 < chunk_mb ->
  forall (k : nat) (blocks : group) (remain : Z) (out : group),
    alloc_loop fuel oom k chunk_mb blocks remain = Ok out ->
    exists new : group,
      out = blocks ++ new /\ Forall block_ok new /\
      sum_mb new = Z.max 0 remain /\ (0 < remain -> new <> []).
Proof.
  intros Hchunk. induction fuel as [|fuel IH]; intros k blocks remain out.
  - simpl. destruct (remain >? 0) eqn:E; [discriminate|].
    intros [= <-]. exists []. rewrite app_nil_r.
    rewrite Z.gtb_ltb in E. apply Z.ltb_ge in E.
    repeat split; [constructor | unfold sum_mb, sum; simpl; lia | lia].
  - simpl. destruct (remain >? 0) eqn:E.
    + rewrite Z.gtb_ltb in E. apply Z.ltb_lt in E.
      rewrite bytearray_new_cases by lia.
      destruct (oom k); [discriminate|].
      intros H. apply IH in H. destruct H as [new [-> [Hok [Hsum _]]]].
      set (b := {| len := Z.min chunk_mb remain * 1024 * 1024 |}) in *.
      assert (Hb : block_ok b).
      { exists (Z.min chunk_mb remain). split; [lia | simpl; lia]. }
      exists (b :: new). rewrite <- app_assoc. simpl.
      repeat split; [now constructor | | congruence].
      change (b :: new) with ([b] ++ new). rewrite sum_mb_app, Hsum.
      destruct (block_ok_mb b Hb) as [_ Hlen]. simpl in Hlen.
      unfold sum_mb, sum. simpl. lia.
    + intros [= <-]. exists []. rewrite app_nil_r.
      rewrite Z.gtb_ltb in E. apply Z.ltb_ge in E.
      repeat split; [constructor | unfold sum_mb, sum; simpl; lia | lia].
Qed.

(** With a positive chunk size the loop of [_alloc_mb] ends within
    [remain] turns. *)
Lemma alloc_loop_terminates (oom : oracle) (chunk_mb : Z) :
  0 < chunk_mb ->
  forall (fuel k : nat) (blocks : group) (remain : Z),
    (Z.to_nat remain <= fuel)%nat ->
    alloc_loop fuel oom k chunk_mb blocks remain <> OutOfFuel.
Proof.
  intros Hchunk. induction fuel as [|fuel IH]; intros k blocks remain Hfuel.
  - simpl. destruct (remain >? 0) eqn:E; [|discriminate].
    rewrite Z.gtb_ltb in E. apply Z.ltb_lt in E. lia.
  - simpl. destruct (remain >? 0) eqn:E; [|discriminate].
    rewrite Z.gtb_ltb in E. apply Z.ltb_lt in E.
    rewrite bytearray_new_cases by lia.
    destruct (oom k); [discriminate|]. apply IH. lia.
Qed.

(** When no allocation fails, the loop returns a group. *)
Lemma alloc_loop_returns (oom : oracle) (chunk_mb : Z) :
  0 < chunk_mb -> (forall j, oom j = false) ->
  forall (fuel k : nat) (blocks : group) (remain : Z),
    (Z.to_nat remain <= fuel)%nat ->
    exists out, alloc_loop fuel oom k chunk_mb blocks remain = Ok out.
Proof.
  intros Hchunk Hmem. induction fuel as [|fuel IH]; intros k blocks remain Hfuel.
  - simpl. destruct (remain >? 0) eqn:E; [|now eexists].
    rewrite Z.gtb_ltb in E. apply Z.ltb_lt in E. lia.
  - simpl. destruct (remain >? 0) eqn:E; [|now eexists].
    rewrite Z.gtb_ltb in E. apply Z.ltb_lt in E.
    rewrite bytearray_new_cases by lia. rewrite Hmem. apply IH. lia.
Qed.

(** When the allocation number [k + j] fails and the loop gets as far
    as attempting it, the loop raises [MemoryError]. *)
Lemma alloc_loop_oom (oom : oracle) (chunk_mb : Z) :
  0 < chunk_mb ->
  forall (fuel k j : nat) (blocks : group) (remain : Z),
    (Z.to_nat remain <= fuel)%nat ->
    oom (k + j)%nat = true ->
    Z.of_nat j * chunk_mb < remain ->
    alloc_loop fuel oom k chunk_mb blocks remain = Raised MemoryError.
Proof.
  intros Hchunk. induction fuel as [|fuel IH]; intros k j blocks remain Hfuel Hj Hreach.
  - lia.
  - simpl. destruct (remain >? 0) eqn:E.
    + rewrite Z.gtb_ltb in E. apply Z.ltb_lt in E.
      rewrite bytearray_new_cases by lia.
      destruct (oom k) eqn:Hk; [reflexivity|].
      destruct j as [|j]; [rewrite Nat.add_0_r in Hj; congruence|].
      apply (IH (S k) j); [lia | now rewrite Nat.add_succ_comm | nia].
    + rewrite Z.gtb_ltb in E. apply Z.ltb_ge in E. nia.
Qed.

(** [_alloc_mb] with memory to spare. *)
Lemma alloc_mb_enough (mb chunk_mb : Z) :
  0 < mb -> 0 < chunk_mb ->
  exists blocks : group,
    _alloc_mb enough_memory mb chunk_mb = Ok blocks /\
    Forall block_ok blocks /\ sum_mb blocks = mb /\ blocks <> [].
Proof.
  intros Hmb Hchunk. unfold _alloc_mb.
  destruct (alloc_loop_returns enough_memory chunk_mb Hchunk (fun _ => eq_refl)
              (Z.to_nat mb) O [] mb (Nat.le_refl _)) as [out Hout].
  exists out. split; [assumption|].
  destruct (alloc_loop_inv _ _ _ Hchunk _ _ _ _ Hout) as [new [-> [Hok [Hsum Hne]]]].
  simpl. repeat split; [assumption | lia | auto].
Qed.

(** Any group [_alloc_mb] returns for a positive request. *)
Lemma alloc_mb_inv (oom : oracle) (mb chunk_mb : Z) (blocks : group) :
  0 < mb -> 0 < chunk_mb ->
  _alloc_mb oom mb chunk_mb = Ok blocks ->
  Forall block_ok blocks /\ sum_mb blocks = mb /\ blocks <> [].
Proof.
  intros Hmb Hchunk H. unfold _alloc_mb in H.
  destruct (alloc_loop_inv _ _ _ Hchunk _ _ _ _ H) as [new [-> [Hok [Hsum Hne]]]].
  simpl. repeat split; [assumption | lia | auto].
Qed.

Lemma alloc_mb_terminates (oom : oracle) (mb chunk_mb : Z) :
  0 < chunk_mb -> _alloc_mb oom mb chunk_mb <> OutOfFuel.
Proof.
  intros Hchunk. unfold _alloc_mb.
  now apply alloc_loop_terminates.
Qed.

(** ** The release loops *)

Lemma drain_group_eq (fuel : nat) (g : group) (to_free : Z) :
  drain_group fuel g to_free =
    match list_pop g with
    | None => Some (g, to_free)
    | Some (g', b) =>
        if to_free >? 0 then
          match fuel with
          | O => None
          | S fuel' => drain_group fuel' g' (to_free - mb_of b)
          end
        else Some (g, to_free)
    end.
Proof. destruct fuel; reflexivity. Qed.

Lemma drain_pool_eq (fuel : nat) (_chunks : pool) (to_free : Z) :
  drain_pool fuel _chunks to_free =
    if to_free >? 0 then
      match list_pop _chunks with
      | None => Some (_chunks, to_free)
      | Some (rest, g) =>
          match fuel with
          | O => None
          | S fuel' =>
              match drain_group (length g) g to_free with
              | None => None
              | Some ([], to_free') => drain_pool fuel' rest to_free'
              | Some (g', to_free') => drain_pool fuel' (rest ++ [g']) to_free'
              end
          end
      end
    else Some (_chunks, to_free).
Proof. destruct fuel; reflexivity. Qed.

(** The inner loop pops blocks off the end of the group, counts each
    one in whole megabytes, and stops on an empty group or once
    nothing is left to free; the block popped last was still needed.
    One unit of fuel per block is enough. *)
Lemma drain_group_spec (g : group) :
  forall (fuel : nat) (to_free : Z),
    (length g <= fuel)%nat ->
    exists (kept dropped : group) (left : Z),
      drain_group fuel g to_free = Some (kept, left) /\
      g = kept ++ dropped /\
      left = to_free - sum_mb dropped /\
      (kept = [] \/ left <= 0) /\
      (forall b rest, dropped = b :: rest -> 0 < left + mb_of b).
Proof.
  induction g as [|b g IH] using rev_ind; intros fuel to_free Hfuel.
  - exists [], [], to_free. rewrite drain_group_eq, list_pop_nil.
    repeat split; [unfold sum_mb, sum; simpl; lia | now left | discriminate].
  - rewrite drain_group_eq, list_pop_snoc.
    destruct (to_free >? 0) eqn:E.
    + rewrite Z.gtb_ltb in E. apply Z.ltb_lt in E.
      rewrite length_app in Hfuel. simpl in Hfuel.
      destruct fuel as [|fuel]; [lia|].
      destruct (IH fuel (to_free - mb_of b)) as
        [kept [dropped [left [Hrun [Hg [Hleft [Hstop Hlast]]]]]]]; [lia|].
      exists kept, (dropped ++ [b]), left.
      repeat split.
      * assumption.
      * now rewrite Hg, app_assoc.
      * rewrite sum_mb_snoc. lia.
      * assumption.
      * intros b0 rest Hd. destruct dropped as [|d dropped].
        -- simpl in Hd. injection Hd as <- <-.
           unfold sum_mb, sum in Hleft. simpl in Hleft. lia.
        -- simpl in Hd. injection Hd as <- <-. now apply (Hlast d dropped).
    + rewrite Z.gtb_ltb in E. apply Z.ltb_ge in E.
      exists (g ++ [b]), [], to_free.
      repeat split;
        [now rewrite app_nil_r | unfold sum_mb, sum; simpl; lia
        | now right | discriminate].
Qed.

Lemma drain_pool_done (fuel : nat) (_chunks : pool) (to_free : Z) :
  to_free <= 0 -> drain_pool fuel _chunks to_free = Some (_chunks, to_free).
Proof.
  intros H. rewrite drain_pool_eq.
  destruct (to_free >? 0) eqn:E; [|reflexivity].
  rewrite Z.gtb_ltb in E. apply Z.ltb_lt in E. lia.
Qed.

Lemma lifo_cut_refl (p : pool) : lifo_cut p p.
Proof. left. exists []. now rewrite app_nil_r. Qed.

Lemma lifo_cut_app (new old later : pool) :
  lifo_cut new old -> lifo_cut new (old ++ later).
Proof.
  intros [[l ->] | [gs [g [d [l [Hg [Hd [-> ->]]]]]]]].
  - left. exists (l ++ later). now rewrite app_assoc.
  - right. exists gs, g, d, (l ++ later).
    repeat split; try assumption. now rewrite <- app_assoc.
Qed.

(** The outer loop: what it leaves is a LIFO cut of the pool, the
    megabytes it removed are those it counted, and it stops on an empty
    pool or once nothing is left to free.  One unit of fuel per group
    is enough. *)
Lemma drain_pool_spec (_chunks : pool) :
  forall (fuel : nat) (to_free : Z),
    (length _chunks <= fuel)%nat ->
    exists (new : pool) (left : Z),
      drain_pool fuel _chunks to_free = Some (new, left) /\
      lifo_cut new _chunks /\
      pool_mb new = pool_mb _chunks - (to_free - left) /\
      (new = [] \/ left <= 0).
Proof.
  induction _chunks as [|g rest IH] using rev_ind; intros fuel to_free Hfuel.
  - exists [], to_free. rewrite drain_pool_eq, list_pop_nil.
    destruct (to_free >? 0);
      (repeat split; [apply lifo_cut_refl | lia | now left]).
  - destruct (Z.ltb_spec 0 to_free) as [Hpos | Hle].
    2:{ exists (rest ++ [g]), to_free. rewrite drain_pool_done by assumption.
        repeat split; [apply lifo_cut_refl | lia | now right]. }
    rewrite drain_pool_eq, list_pop_snoc.
    replace (to_free >? 0) with true by (symmetry; rewrite Z.gtb_ltb; now apply Z.ltb_lt).
    rewrite length_app in Hfuel. simpl in Hfuel.
    destruct fuel as [|fuel]; [lia|].
    destruct (drain_group_spec g (length g) to_free (Nat.le_refl _)) as
      [kept [dropped [left1 [Hrun [Hg [Hleft1 [Hstop _]]]]]]].
    rewrite Hrun. destruct kept as [|b kept].
    + destruct (IH fuel left1) as [new [left [Hrec [Hcut [Hmb Hend]]]]]; [lia|].
      exists new, left. simpl in Hg. subst dropped.
      repeat split.
      * assumption.
      * now apply lifo_cut_app.
      * rewrite pool_mb_snoc. lia.
      * assumption.
    + destruct Hstop as [Hnil | Hdone]; [discriminate|].
      rewrite drain_pool_done by assumption.
      exists (rest ++ [b :: kept]), left1.
      repeat split.
      * destruct dropped as [|d dropped].
        -- rewrite app_nil_r in Hg. subst g. apply lifo_cut_refl.
        -- right. exists rest, (b :: kept), (d :: dropped), [].
           repeat split; [discriminate | discriminate | now rewrite Hg].
      * rewrite !pool_mb_snoc, Hg, sum_mb_app. lia.
      * now right.
Qed.

(** The release loop always ends. *)
Lemma release_returns (_chunks : pool) (to_free : Z) :
  exists (new : pool) (left : Z),
    release _chunks to_free = Ok new /\
    lifo_cut new _chunks /\
    pool_mb new = pool_mb _chunks - (to_free - left) /\
    (new = [] \/ left <= 0).
Proof.
  destruct (drain_pool_spec _chunks (length _chunks) to_free (Nat.le_refl _))
    as [new [left [Hrun H]]].
  exists new, left. unfold release. rewrite Hrun. now split.
Qed.

(** Cutting a well-formed pool leaves a well-formed pool. *)
Lemma lifo_cut_no_empty_group (new old : pool) :
  lifo_cut new old -> no_empty_group old -> no_empty_group new.
Proof.
  unfold no_empty_group.
  intros [[l ->] | [gs [g [d [l [Hg [Hd [-> ->]]]]]]]] H.
  - now apply Forall_app in H.
  - apply Forall_app in H. destruct H as [Hgs _].
    apply Forall_app. split; [assumption | now constructor].
Qed.

Lemma lifo_cut_blocks_ok (new old : pool) :
  lifo_cut new old -> Forall (Forall block_ok) old -> Forall (Forall block_ok) new.
Proof.
  intros [[l ->] | [gs [g [d [l [Hg [Hd [-> ->]]]]]]]] H.
  - now apply Forall_app in H.
  - apply Forall_app in H. destruct H as [Hgs Hrest].
    inversion Hrest as [|? ? Hgd _]; subst.
    apply Forall_app in Hgd.
    apply Forall_app. split; [assumption | constructor; [tauto | constructor]].
Qed.

Lemma lifo_cut_pool_ok (new old : pool) :
  lifo_cut new old -> pool_ok old -> pool_ok new.
Proof.
  intros Hcut [Hne Hok]. split.
  - now apply (lifo_cut_no_empty_group new old).
  - now apply (lifo_cut_blocks_ok new old).
Qed.

(** The blocks kept by a cut are the oldest blocks of the pool, each
    one as it was. *)
Lemma lifo_cut_concat (new old : pool) :
  lifo_cut new old -> exists freed : group, concat old = concat new ++ freed.
Proof.
  intros [[l ->] | [gs [g [d [l [Hg [Hd [-> ->]]]]]]]].
  - exists (concat l). apply concat_app.
  - exists (d ++ concat l). rewrite !concat_app. simpl.
    now rewrite app_nil_r, <- !app_assoc.
Qed.

(** ** The handlers *)

(** Settles the integer tests of a handler from the hypotheses. *)
Ltac settle_tests :=
  repeat match goal with
    | |- context [?a >? ?b] => rewrite (Z.gtb_ltb a b)
    | |- context [?a <=? ?b] => destruct (Z.leb_spec a b); try lia
    | |- context [?a <? ?b] => destruct (Z.ltb_spec a b); try lia
    | |- context [?a =? ?b] => destruct (Z.eqb_spec a b); try lia
    end; simpl.

Section HandlerProperties.

Variable int : string -> option Z.

(** A valid [/mem/free] runs the release loop to its end and
    reports the total of what is left. *)
Lemma mem_free_valid (args : query) (_chunks : pool) (mb : Z) :
  int (args_get args "mb" "0") = Some mb -> 0 < mb ->
  exists (new : pool) (left : Z),
    mem_free int args _chunks =
      (Ok (reply (jsonify
         [("ok", JBool true); ("freed_request_mb", JInt mb);
          ("total_mb", JInt (_current_mb new))])), new) /\
    lifo_cut new _chunks /\
    pool_mb new = pool_mb _chunks - (mb - left) /\
    (new = [] \/ left <= 0).
Proof.
  intros Hmb Hpos. unfold mem_free. rewrite Hmb. settle_tests.
  destruct (release_returns _chunks mb) as [new [left [Hrun Hnew]]].
  rewrite Hrun. now exists new, left.
Qed.

(** A valid [/mem/add] with memory to spare appends one group of
    [mb] megabytes. *)
Lemma mem_add_valid (args : query) (_chunks : pool) (mb chunk : Z) :
  int (args_get args "mb" "100") = Some mb ->
  int (args_get args "chunk" (str CHUNK_MB_DEFAULT)) = Some chunk ->
  0 < mb <= 4096 -> 0 < chunk ->
  exists blocks : group,
    mem_add int enough_memory args _chunks =
      (Ok (reply (jsonify
         [("ok", JBool true); ("added_mb", JInt mb); ("chunk_mb", JInt chunk);
          ("total_mb", JInt (_current_mb (_chunks ++ [blocks])))])),
       _chunks ++ [blocks]) /\
    Forall block_ok blocks /\ sum_mb blocks = mb /\ blocks <> [].
Proof.
  intros Hmb Hchunk Hrange Hpos. unfold mem_add. rewrite Hmb, Hchunk.
  settle_tests.
  destruct (alloc_mb_enough mb chunk) as [blocks [Hrun Hnew]]; [lia | lia |].
  rewrite Hrun. now exists blocks.
Qed.

(** Every handler keeps the pool well formed. *)
Lemma serve_pool_ok (r : route) (oom : oracle) (args : query)
    (_chunks _chunks' : pool) (out : result response) :
  pool_ok _chunks ->
  serve int r oom args _chunks = (out, _chunks') ->
  pool_ok _chunks'.
Proof.
  intros Hok. destruct r; simpl.
  - intros [= _ <-]. assumption.
  - unfold mem_add.
    destruct (int (args_get args "mb" "100")) as [mb|]; [|now intros [= _ <-]].
    destruct (int (args_get args "chunk" (str CHUNK_MB_DEFAULT))) as [chunk|];
      [|now intros [= _ <-]].
    destruct (Z.leb_spec mb 0); [now intros [= _ <-]|].
    destruct (Z.leb_spec chunk 0); [now intros [= _ <-]|]. simpl.
    destruct (mb >? 4096); [now intros [= _ <-]|].
    destruct (_alloc_mb oom mb chunk) as [blocks| |] eqn:Hrun;
      [|now intros [= _ <-] ..].
    intros [= _ <-].
    destruct (alloc_mb_inv oom mb chunk blocks) as [Hb [_ Hne]]; try assumption.
    now apply pool_ok_snoc.
  - unfold mem_set.
    destruct (int (args_get args "mb" "0")) as [target|]; [|now intros [= _ <-]].
    destruct (target <? 0); [now intros [= _ <-]|].
    destruct (Z.eqb_spec target (_current_mb _chunks)); [now intros [= _ <-]|].
    rewrite Z.gtb_ltb.
    destruct (Z.ltb_spec (_current_mb _chunks) target).
    + destruct (_alloc_mb oom (target - _current_mb _chunks) CHUNK_MB_DEFAULT)
        as [blocks| |] eqn:Hrun; [|now intros [= _ <-] ..].
      intros [= _ <-].
      destruct (alloc_mb_inv oom (target - _current_mb _chunks)
                  CHUNK_MB_DEFAULT blocks) as [Hb [_ Hne]];
        [lia | reflexivity | assumption |].
      now apply pool_ok_snoc.
    + destruct (release_returns _chunks (_current_mb _chunks - target))
        as [new [left [Hrun [Hcut _]]]].
      rewrite Hrun. intros [= _ <-]. now apply (lifo_cut_pool_ok new _chunks).
  - unfold mem_free.
    destruct (int (args_get args "mb" "0")) as [mb|]; [|now intros [= _ <-]].
    destruct (mb <=? 0); [now intros [= _ <-]|].
    destruct (release_returns _chunks mb) as [new [left [Hrun [Hcut _]]]].
    rewrite Hrun. intros [= _ <-]. now apply (lifo_cut_pool_ok new _chunks).
  - intros [= _ <-]. apply pool_ok_nil.
  - intros [= _ <-]. assumption.
Qed.

(** Every pool the application can hold is well formed. *)
Lemma reachable_pool_ok (_chunks : pool) :
  reachable int _chunks -> pool_ok _chunks.
Proof.
  induction 1 as [|r oom args p p' out _ IH Hserve].
  - apply pool_ok_nil.
  - now apply (serve_pool_ok r oom args p p' out).
Qed.

(** No handler loops: each one returns or raises. *)
Lemma serve_terminates (r : route) (oom : oracle) (args : query)
    (_chunks : pool) :
  fst (serve int r oom args _chunks) <> OutOfFuel.
Proof.
  destruct r; simpl; try discriminate.
  - unfold mem_add.
    destruct (int (args_get args "mb" "100")) as [mb|]; [|discriminate].
    destruct (int (args_get args "chunk" (str CHUNK_MB_DEFAULT))) as [chunk|];
      [|discriminate].
    destruct (Z.leb_spec mb 0); [discriminate|].
    destruct (Z.leb_spec chunk 0); [discriminate|]. simpl.
    destruct (mb >? 4096); [discriminate|].
    pose proof (alloc_mb_terminates oom mb chunk) as Hrun.
    destruct (_alloc_mb oom mb chunk); simpl; [discriminate | discriminate | now destruct Hrun].
  - unfold mem_set.
    destruct (int (args_get args "mb" "0")) as [target|]; [|discriminate].
    destruct (target <? 0); [discriminate|].
    destruct (target =? _current_mb _chunks); [discriminate|].
    destruct (target >? _current_mb _chunks).
    + pose proof (alloc_mb_terminates oom (target - _current_mb _chunks)
                    CHUNK_MB_DEFAULT) as Hrun.
      destruct (_alloc_mb oom (target - _current_mb _chunks) CHUNK_MB_DEFAULT);
        simpl; [discriminate | discriminate | now destruct Hrun].
    + destruct (release_returns _chunks (_current_mb _chunks - target))
        as [new [left [Hrun _]]].
      rewrite Hrun. discriminate.
  - unfold mem_free.
    destruct (int (args_get args "mb" "0")) as [mb|]; [|discriminate].
    destruct (mb <=? 0); [discriminate|].
    destruct (release_returns _chunks mb) as [new [left [Hrun _]]].
    rewrite Hrun. discriminate.
Qed.

(** ** Growing *)

(** C1.  A valid Grow, [/mem/add] with [0 < mb <= 4096] and
    [chunk > 0], served with memory to spare, succeeds, and the total
    it reports, which is the total of the pool it leaves, is the
    total before plus [mb], whatever the chunk size. *)
Theorem grow_total_exact (args : query) (_chunks : pool) (mb chunk : Z) :
  int (args_get args "mb" "100") = Some mb ->
  int (args_get args "chunk" (str CHUNK_MB_DEFAULT)) = Some chunk ->
  0 < mb <= 4096 -> 0 < chunk ->
  exists (r : response) (_chunks' : pool),
    mem_add int enough_memory args _chunks = (Ok r, _chunks') /\
    succeeded r = true /\
    field "total_mb" r = Some (JInt (_current_mb _chunks + mb)) /\
    _current_mb _chunks' = _current_mb _chunks + mb.
Proof.
  intros Hmb Hchunk Hrange Hpos.
  destruct (mem_add_valid args _chunks mb chunk Hmb Hchunk Hrange Hpos)
    as [blocks [Hrun [Hok [Hsum _]]]].
  assert (Htotal : _current_mb (_chunks ++ [blocks]) = _current_mb _chunks + mb).
  { rewrite current_mb_snoc by assumption. now rewrite Hsum. }
  rewrite Htotal in Hrun.
  eexists. exists (_chunks ++ [blocks]).
  split; [exact Hrun|]. repeat split. assumption.
Qed.

(** C6.  A valid Grow of [mb] followed at once by a Shrink of the
    same [mb] gives back the pool as it was, hence its total. *)
Theorem grow_then_shrink_round_trip (args_add args_free : query)
    (_chunks : pool) (mb chunk : Z) :
  int (args_get args_add "mb" "100") = Some mb ->
  int (args_get args_add "chunk" (str CHUNK_MB_DEFAULT)) = Some chunk ->
  int (args_get args_free "mb" "0") = Some mb ->
  0 < mb <= 4096 -> 0 < chunk ->
  exists (r1 r2 : response) (_chunks1 : pool),
    mem_add int enough_memory args_add _chunks = (Ok r1, _chunks1) /\
    mem_free int args_free _chunks1 = (Ok r2, _chunks) /\
    succeeded r1 = true /\ succeeded r2 = true /\
    field "total_mb" r2 = Some (JInt (_current_mb _chunks)).
Proof.
  intros Hmb Hchunk Hfree Hrange Hpos.
  destruct (mem_add_valid args_add _chunks mb chunk Hmb Hchunk Hrange Hpos)
    as [blocks [Hadd [Hok [Hsum Hne]]]].
  assert (Hrun : release (_chunks ++ [blocks]) mb = Ok _chunks).
  { unfold release. rewrite length_app, Nat.add_comm. simpl.
    rewrite Z.gtb_ltb. destruct (Z.ltb_spec 0 mb); [|lia].
    rewrite list_pop_snoc.
    destruct (drain_group_spec blocks (length blocks) mb (Nat.le_refl _))
      as [kept [dropped [left [Hdrain [Hsplit [Hleft [Hstop _]]]]]]].
    rewrite Hdrain.
    assert (Hkept : Forall block_ok kept).
    { rewrite Hsplit in Hok. now apply Forall_app in Hok. }
    assert (Hleft' : left = sum_mb kept).
    { rewrite Hsplit, sum_mb_app in Hsum. lia. }
    assert (Hnil : kept = []).
    { destruct Hstop as [Hnil | Hdone]; [assumption|].
      destruct kept as [|b kept]; [reflexivity | exfalso].
      assert (0 < sum_mb (b :: kept)) by (now apply sum_mb_pos). lia. }
    subst kept.
    rewrite drain_pool_done; [reflexivity|].
    rewrite Hleft'. unfold sum_mb, sum. simpl. lia. }
  eexists. eexists. exists (_chunks ++ [blocks]).
  split; [exact Hadd|]. unfold mem_free. rewrite Hfree.
  destruct (Z.leb_spec mb 0); [lia|]. rewrite Hrun.
  repeat split.
Qed.

(** ** Shrinking *)

(** C7.  On a well-formed pool a Shrink of at least the current total
    succeeds and leaves a pool with no group, of total 0. *)
Theorem shrink_over_request_empties (args : query) (_chunks : pool) (mb : Z) :
  pool_ok _chunks ->
  int (args_get args "mb" "0") = Some mb ->
  0 < mb -> _current_mb _chunks <= mb ->
  exists r : response,
    mem_free int args _chunks = (Ok r, []) /\
    succeeded r = true /\ rejection r = None /\
    field "total_mb" r = Some (JInt 0) /\
    allocated_mb [] = Some (JInt 0) /\ groups [] = Some (JInt 0).
Proof.
  intros Hok Hmb Hpos Hover.
  destruct (mem_free_valid args _chunks mb Hmb Hpos)
    as [new [left [Hrun [Hcut [Hsum Hstop]]]]].
  assert (Hnew : new = []).
  { destruct Hstop as [Hnil | Hdone]; [assumption|].
    apply pool_ok_empty; [now apply (lifo_cut_pool_ok new _chunks)|].
    rewrite (current_mb_pool_mb _chunks) in Hover by apply Hok. lia. }
  subst new. eexists. split; [exact Hrun|]. repeat split.
Qed.

(** C10.  On a well-formed pool a valid Shrink succeeds and leaves a
    total of at most [max 0 (previous total - mb)]; while it leaves
    any group, it has freed at least [mb]. *)
Theorem shrink_frees_at_least (args : query) (_chunks : pool) (mb : Z) :
  pool_ok _chunks ->
  int (args_get args "mb" "0") = Some mb ->
  0 < mb ->
  exists (r : response) (_chunks' : pool),
    mem_free int args _chunks = (Ok r, _chunks') /\
    succeeded r = true /\
    field "total_mb" r = Some (JInt (_current_mb _chunks')) /\
    _current_mb _chunks' <= Z.max 0 (_current_mb _chunks - mb) /\
    (_chunks' <> [] -> _current_mb _chunks' <= _current_mb _chunks - mb).
Proof.
  intros Hok Hmb Hpos.
  destruct (mem_free_valid args _chunks mb Hmb Hpos)
    as [new [left [Hrun [Hcut [Hsum Hstop]]]]].
  pose proof (lifo_cut_pool_ok new _chunks Hcut Hok) as Hnew.
  eexists. exists new. split; [exact Hrun|].
  rewrite (current_mb_pool_mb _chunks) by apply Hok.
  rewrite (current_mb_pool_mb new) by apply Hnew.
  repeat split.
  - destruct Hstop as [-> | Hdone]; [|lia].
    unfold pool_mb, sum_mb, sum. simpl. lia.
  - intros Hne. destruct Hstop as [-> | Hdone]; [congruence | lia].
Qed.

(** ** Converging *)

(** C8.  On a well-formed pool, Converge to a target below the
    current total succeeds; what it leaves is a LIFO cut of the pool
    (groups and blocks popped from the end, the blocks kept being the
    oldest ones, each as it was), and its total is at most the
    target. *)
Theorem converge_down_lifo (oom : oracle) (args : query) (_chunks : pool)
    (target : Z) :
  pool_ok _chunks ->
  int (args_get args "mb" "0") = Some target ->
  0 <= target < _current_mb _chunks ->
  exists (r : response) (_chunks' : pool),
    mem_set int oom args _chunks = (Ok r, _chunks') /\
    succeeded r = true /\
    field "total_mb" r = Some (JInt (_current_mb _chunks')) /\
    lifo_cut _chunks' _chunks /\
    (exists freed : group, concat _chunks = concat _chunks' ++ freed) /\
    _current_mb _chunks' <= target.
Proof.
  intros Hok Htarget Hrange. unfold mem_set. rewrite Htarget.
  destruct (Z.ltb_spec target 0); [lia|].
  destruct (Z.eqb_spec target (_current_mb _chunks)); [lia|].
  rewrite Z.gtb_ltb. destruct (Z.ltb_spec (_current_mb _chunks) target); [lia|].
  destruct (release_returns _chunks (_current_mb _chunks - target))
    as [new [left [Hrun [Hcut [Hsum Hstop]]]]].
  rewrite Hrun. eexists. exists new. split; [reflexivity|].
  pose proof (lifo_cut_pool_ok new _chunks Hcut Hok) as Hnew.
  repeat split; [assumption | now apply lifo_cut_concat |].
  rewrite (current_mb_pool_mb new) by apply Hnew.
  rewrite (current_mb_pool_mb _chunks) in * by apply Hok.
  destruct Hstop as [-> | Hdone]; [|lia].
  unfold pool_mb, sum_mb, sum. simpl. lia.
Qed.

(** C2, as the code has it.  Converge to a target above the total of
    a well-formed pool allocates the difference with the default
    chunk size, as Grow does, and has no ceiling: up to a difference
    of 4096 it leaves the same pool and ends the same way as the Grow
    of the difference, whatever the memory does; above 4096 the Grow
    is rejected with [LimitExceeded] and leaves the pool as it was,
    while Converge, with memory to spare, succeeds and reports the
    target as the total. *)
Theorem converge_up_grows_without_ceiling (oom : oracle)
    (args_set args_add : query) (_chunks : pool) (target : Z) :
  pool_ok _chunks ->
  int (args_get args_set "mb" "0") = Some target ->
  int (args_get args_add "mb" "100") = Some (target - _current_mb _chunks) ->
  int (args_get args_add "chunk" (str CHUNK_MB_DEFAULT)) = Some CHUNK_MB_DEFAULT ->
  _current_mb _chunks < target ->
  (target - _current_mb _chunks <= 4096 ->
     snd (mem_set int oom args_set _chunks) =
       snd (mem_add int oom args_add _chunks) /\
     same_outcome (fst (mem_set int oom args_set _chunks))
                  (fst (mem_add int oom args_add _chunks))) /\
  (4096 < target - _current_mb _chunks ->
     (exists r : response,
         mem_add int oom args_add _chunks = (Ok r, _chunks) /\
         rejection r = Some LimitExceeded) /\
     (exists (r : response) (blocks : group),
         mem_set int enough_memory args_set _chunks =
           (Ok r, _chunks ++ [blocks]) /\
         succeeded r = true /\ field "total_mb" r = Some (JInt target))).
Proof.
  intros Hok Hset Hadd Hchunk Hup.
  assert (Hcurr : 0 <= _current_mb _chunks).
  { rewrite current_mb_pool_mb by apply Hok. apply pool_mb_nonneg, Hok. }
  unfold mem_set, mem_add. rewrite Hset, Hadd, Hchunk.
  destruct (Z.ltb_spec target 0); [lia|].
  destruct (Z.eqb_spec target (_current_mb _chunks)); [lia|].
  rewrite !Z.gtb_ltb.
  destruct (Z.ltb_spec (_current_mb _chunks) target); [|lia].
  destruct (Z.leb_spec (target - _current_mb _chunks) 0); [lia|].
  change (CHUNK_MB_DEFAULT <=? 0) with false. simpl orb. cbv iota.
  split.
  - intros Hlimit.
    destruct (Z.ltb_spec 4096 (target - _current_mb _chunks)); [lia|].
    pose proof (alloc_mb_terminates oom (target - _current_mb _chunks)
                  CHUNK_MB_DEFAULT eq_refl) as Hrun.
    destruct (_alloc_mb oom (target - _current_mb _chunks) CHUNK_MB_DEFAULT);
      simpl; [repeat split | repeat split | now destruct Hrun].
  - intros Hlimit.
    destruct (Z.ltb_spec 4096 (target - _current_mb _chunks)); [|lia].
    split; [eexists; split; reflexivity|].
    destruct (alloc_mb_enough (target - _current_mb _chunks) CHUNK_MB_DEFAULT)
      as [blocks [Hrun [Hblocks [Hsum _]]]]; [lia | reflexivity |].
    rewrite Hrun. eexists. exists blocks. split; [reflexivity|].
    split; [reflexivity|].
    rewrite current_mb_snoc by assumption. rewrite Hsum.
    unfold field. simpl. do 2 f_equal. lia.
Qed.

(** ** Failures *)

(** C3, as the code has it.  When an allocation that a valid Grow
    attempts fails, the [MemoryError] is not caught: it leaves the
    handler as an exception, no rejection is built, and the pool is
    as it was, the blocks of the unfinished group being dropped. *)
Theorem grow_memory_error_escapes (oom : oracle) (args : query)
    (_chunks : pool) (mb chunk : Z) (j : nat) :
  int (args_get args "mb" "100") = Some mb ->
  int (args_get args "chunk" (str CHUNK_MB_DEFAULT)) = Some chunk ->
  0 < mb <= 4096 -> 0 < chunk ->
  oom j = true -> Z.of_nat j * chunk < mb ->
  mem_add int oom args _chunks = (Raised MemoryError, _chunks).
Proof.
  intros Hmb Hchunk Hrange Hpos Hfail Hreach.
  unfold mem_add. rewrite Hmb, Hchunk. settle_tests.
  unfold _alloc_mb.
  now rewrite (alloc_loop_oom oom chunk Hpos (Z.to_nat mb) O j [] mb).
Qed.

(** C5.  An invalid request to [/mem/add], [/mem/set] or [/mem/free]
    is rejected with [InvalidArgument], and the pool after it is the
    pool before it. *)
Theorem invalid_request_rejected (r : route) (oom : oracle) (args : query)
    (_chunks : pool) :
  invalid int r args ->
  exists resp : response,
    serve int r oom args _chunks = (Ok resp, _chunks) /\
    rejection resp = Some InvalidArgument.
Proof.
  destruct r; simpl; try contradiction.
  - unfold mem_add.
    intros [Hmb | [Hchunk | [[mb [Hmb Hle]] | [chunk [Hchunk Hle]]]]].
    + rewrite Hmb. eexists. split; reflexivity.
    + rewrite Hchunk. destruct (int (args_get args "mb" "100"));
        eexists; split; reflexivity.
    + rewrite Hmb.
      destruct (int (args_get args "chunk" (str CHUNK_MB_DEFAULT)));
        [|eexists; split; reflexivity].
      destruct (Z.leb_spec mb 0); [|lia]. eexists. split; reflexivity.
    + rewrite Hchunk.
      destruct (int (args_get args "mb" "100")) as [mb|];
        [|eexists; split; reflexivity].
      destruct (Z.leb_spec chunk 0); [|lia]. rewrite orb_true_r.
      eexists. split; reflexivity.
  - unfold mem_set. intros [Hmb | [target [Hmb Hneg]]]; rewrite Hmb.
    + eexists. split; reflexivity.
    + destruct (Z.ltb_spec target 0); [|lia]. eexists. split; reflexivity.
  - unfold mem_free. intros [Hmb | [mb [Hmb Hle]]]; rewrite Hmb.
    + eexists. split; reflexivity.
    + destruct (Z.leb_spec mb 0); [|lia]. eexists. split; reflexivity.
Qed.

(** ** The invariant *)

(** C9.  Whatever requests the application has served, to their end
    or to an exception, no group of its pool is empty. *)
Theorem no_group_left_empty (_chunks : pool) :
  reachable int _chunks -> no_empty_group _chunks.
Proof.
  intros Hreach. now destruct (reachable_pool_ok _chunks Hreach).
Qed.

End HandlerProperties.

(** ** Concrete runs *)

Lemma sample_pool_ok : pool_ok sample_pool.
Proof.
  split.
  - repeat constructor; discriminate.
  - repeat constructor; [exists 8 | exists 4 | exists 8]; split; reflexivity.
Qed.

(** C4, as the code has it.  From the empty pool: Grow(300, chunk 8)
    reports 300 with 1 group, Grow(100) reports 400 with 2 groups,
    Shrink(250) pops whole blocks until 256 MB are gone and reports 144
    with 1 group, and Clear reports 0 with no group. *)
Theorem scenario_totals :
  scenario =
    [(Some (JInt 300), Some (JInt 1)); (Some (JInt 400), Some (JInt 2));
     (Some (JInt 144), Some (JInt 1)); (Some (JInt 0), Some (JInt 0))].
Proof. vm_compute. reflexivity. Qed.

(** The scenario does not go through a total of 150. *)
Lemma scenario_not_150 :
  ~ exists g3 : option json,
      scenario =
        [(Some (JInt 300), Some (JInt 1)); (Some (JInt 400), Some (JInt 2));
         (Some (JInt 150), g3); (Some (JInt 0), Some (JInt 0))].
Proof. intros [g3 H]. vm_compute in H. discriminate H. Qed.

(** From the empty pool, Converge to 5000 succeeds and holds 5000 MB,
    while the Grow of 5000 with the default chunk size is rejected and
    leaves the pool empty. *)
Lemma converge_5000_is_not_grow_5000 :
  let set := mem_set int_decimal enough_memory [("mb", "5000")] [] in
  let add := mem_add int_decimal enough_memory [("mb", "5000")] [] in
  snd set <> snd add /\ ~ same_outcome (fst set) (fst add) /\
  _current_mb (snd set) = 5000 /\ _current_mb (snd add) = 0 /\
  total_mb (fst set) = Some (JInt 5000) /\
  (exists r, fst add = Ok r /\ rejection r = Some LimitExceeded).
Proof.
  vm_compute. repeat split.
  - discriminate.
  - intros [H _]. discriminate H.
  - eexists. split; reflexivity.
Qed.

(** A Grow of 20 MB in chunks of 8 whose second allocation fails ends
    in a [MemoryError] that nothing catches: no reply, no rejection. *)
Lemma grow_memory_error_not_reported :
  mem_add int_decimal second_fails [("mb", "20")] sample_pool =
    (Raised MemoryError, sample_pool) /\
  ~ exists (r : response) (p : pool),
      mem_add int_decimal second_fails [("mb", "20")] sample_pool = (Ok r, p).
Proof.
  split; [reflexivity|]. intros [r [p H]]. vm_compute in H. discriminate H.
Qed.

(** Whole-block popping can free more than asked: a Shrink of 1 MB on
    the 20 MB sample pool pops its last block of 8 MB. *)
Example shrink_may_overshoot :
  _current_mb sample_pool = 20 /\
  _current_mb (snd (mem_free int_decimal [("mb", "1")] sample_pool)) = 12.
Proof. split; reflexivity. Qed.

(** ** The results above at concrete requests *)

Lemma grow_total_exact_witness :
  exists (r : response) (_chunks' : pool),
    mem_add int_decimal enough_memory [("mb", "20"); ("chunk", "3")] sample_pool =
      (Ok r, _chunks') /\
    succeeded r = true /\
    field "total_mb" r = Some (JInt (_current_mb sample_pool + 20)) /\
    _current_mb _chunks' = _current_mb sample_pool + 20.
Proof.
  apply (grow_total_exact int_decimal [("mb", "20"); ("chunk", "3")]
           sample_pool 20 3);
    [reflexivity | reflexivity | lia | lia].
Defined.

Lemma grow_then_shrink_round_trip_witness :
  exists (r1 r2 : response) (_chunks1 : pool),
    mem_add int_decimal enough_memory [("mb", "20"); ("chunk", "3")] sample_pool =
      (Ok r1, _chunks1) /\
    mem_free int_decimal [("mb", "20")] _chunks1 = (Ok r2, sample_pool) /\
    succeeded r1 = true /\ succeeded r2 = true /\
    field "total_mb" r2 = Some (JInt (_current_mb sample_pool)).
Proof.
  apply (grow_then_shrink_round_trip int_decimal
           [("mb", "20"); ("chunk", "3")] [("mb", "20")] sample_pool 20 3);
    [reflexivity | reflexivity | reflexivity | lia | lia].
Defined.

Lemma shrink_over_request_empties_witness :
  pool_ok sample_pool /\ _current_mb sample_pool <= 50 /\
  exists r : response,
    mem_free int_decimal [("mb", "50")] sample_pool = (Ok r, []) /\
    succeeded r = true /\ rejection r = None /\
    field "total_mb" r = Some (JInt 0) /\
    allocated_mb [] = Some (JInt 0) /\ groups [] = Some (JInt 0).
Proof.
  split; [apply sample_pool_ok|]. split; [vm_compute; discriminate|].
  apply (shrink_over_request_empties int_decimal [("mb", "50")] sample_pool 50);
    [apply sample_pool_ok | reflexivity | lia | vm_compute; discriminate].
Defined.

Lemma shrink_frees_at_least_witness :
  pool_ok sample_pool /\
  exists (r : response) (_chunks' : pool),
    mem_free int_decimal [("mb", "5")] sample_pool = (Ok r, _chunks') /\
    succeeded r = true /\
    field "total_mb" r = Some (JInt (_current_mb _chunks')) /\
    _current_mb _chunks' <= Z.max 0 (_current_mb sample_pool - 5) /\
    (_chunks' <> [] -> _current_mb _chunks' <= _current_mb sample_pool - 5).
Proof.
  split; [apply sample_pool_ok|].
  apply (shrink_frees_at_least int_decimal [("mb", "5")] sample_pool 5);
    [apply sample_pool_ok | reflexivity | lia].
Defined.

Lemma converge_down_lifo_witness :
  pool_ok sample_pool /\ 0 <= 10 < _current_mb sample_pool /\
  exists (r : response) (_chunks' : pool),
    mem_set int_decimal enough_memory [("mb", "10")] sample_pool =
      (Ok r, _chunks') /\
    succeeded r = true /\
    field "total_mb" r = Some (JInt (_current_mb _chunks')) /\
    lifo_cut _chunks' sample_pool /\
    (exists freed : group, concat sample_pool = concat _chunks' ++ freed) /\
    _current_mb _chunks' <= 10.
Proof.
  assert (Hrange : 0 <= 10 < _current_mb sample_pool)
    by (split; [lia | reflexivity]).
  split; [apply sample_pool_ok|]. split; [exact Hrange|].
  apply (converge_down_lifo int_decimal enough_memory [("mb", "10")]
           sample_pool 10);
    [apply sample_pool_ok | reflexivity | exact Hrange].
Defined.

Lemma converge_up_grows_without_ceiling_witness :
  pool_ok sample_pool /\ _current_mb sample_pool < 30 /\
  (30 - _current_mb sample_pool <= 4096 ->
     snd (mem_set int_decimal second_fails [("mb", "30")] sample_pool) =
       snd (mem_add int_decimal second_fails [("mb", "10")] sample_pool) /\
     same_outcome
       (fst (mem_set int_decimal second_fails [("mb", "30")] sample_pool))
       (fst (mem_add int_decimal second_fails [("mb", "10")] sample_pool))) /\
  (4096 < 30 - _current_mb sample_pool ->
     (exists r : response,
         mem_add int_decimal second_fails [("mb", "10")] sample_pool =
           (Ok r, sample_pool) /\
         rejection r = Some LimitExceeded) /\
     (exists (r : response) (blocks : group),
         mem_set int_decimal enough_memory [("mb", "30")] sample_pool =
           (Ok r, sample_pool ++ [blocks]) /\
         succeeded r = true /\ field "total_mb" r = Some (JInt 30))).
Proof.
  split; [apply sample_pool_ok|]. split; [reflexivity|].
  apply (converge_up_grows_without_ceiling int_decimal second_fails
           [("mb", "30")] [("mb", "10")] sample_pool 30);
    [apply sample_pool_ok | reflexivity | reflexivity | reflexivity | reflexivity].
Defined.

Lemma grow_memory_error_escapes_witness :
  second_fails 1%nat = true /\ Z.of_nat 1 * 8 < 20 /\
  mem_add int_decimal second_fails [("mb", "20")] sample_pool =
    (Raised MemoryError, sample_pool).
Proof.
  split; [reflexivity|]. split; [reflexivity|].
  apply (grow_memory_error_escapes int_decimal second_fails [("mb", "20")]
           sample_pool 20 8 1%nat);
    [reflexivity | reflexivity | lia | lia | reflexivity | reflexivity].
Defined.

Lemma invalid_request_rejected_witness :
  invalid int_decimal PostMemAdd [("mb", "12"); ("chunk", "0")] /\
  exists resp : response,
    serve int_decimal PostMemAdd enough_memory [("mb", "12"); ("chunk", "0")]
      sample_pool = (Ok resp, sample_pool) /\
    rejection resp = Some InvalidArgument.
Proof.
  assert (Hinv : invalid int_decimal PostMemAdd [("mb", "12"); ("chunk", "0")]).
  { simpl. right. right. right. exists 0. split; [reflexivity | lia]. }
  split; [exact Hinv|].
  apply (invalid_request_rejected int_decimal PostMemAdd enough_memory
           [("mb", "12"); ("chunk", "0")] sample_pool Hinv).
Defined.

Lemma no_group_left_empty_witness :
  reachable int_decimal [[{| len := 3 * 1024 * 1024 |}]] /\
  no_empty_group [[{| len := 3 * 1024 * 1024 |}]].
Proof.
  assert (Hreach : reachable int_decimal [[{| len := 3 * 1024 * 1024 |}]]).
  { apply (reach_serve int_decimal PostMemSet enough_memory [("mb", "3")]
             [] _ (fst (mem_set int_decimal enough_memory [("mb", "3")] []))).
    - apply reach_start.
    - reflexivity. }
  split; [exact Hreach|].
  apply (no_group_left_empty int_decimal _ Hreach).
Defined.

(** * More on the allocator *)

Lemma layout_zero (chunk_mb : Z) : 0 < chunk_mb -> layout 0 chunk_mb = [].
Proof.
  intros H. unfold layout.
  rewrite Z.div_0_l, Z.mod_0_l by lia. reflexivity.
Qed.

Lemma layout_small (mb chunk_mb : Z) :
  0 < mb < chunk_mb -> layout mb chunk_mb = [block_mb mb].
Proof.
  intros H. unfold layout.
  rewrite Z.div_small, Z.mod_small by lia.
  destruct (Z.eqb_spec mb 0); [lia | reflexivity].
Qed.

Lemma layout_step (mb chunk_mb : Z) :
  0 < chunk_mb <= mb ->
  layout mb chunk_mb = block_mb chunk_mb :: layout (mb - chunk_mb) chunk_mb.
Proof.
  intros H. unfold layout.
  replace (mb - chunk_mb) with (mb + (-1) * chunk_mb) by lia.
  rewrite Z.div_add, Z.mod_add by lia.
  assert (Hq : 1 <= mb / chunk_mb) by (apply Z.div_le_lower_bound; lia).
  replace (mb / chunk_mb) with (Z.succ (mb / chunk_mb + -1)) at 1 by lia.
  rewrite Z2Nat.inj_succ by lia. reflexivity.
Qed.

(** With memory to spare the loop of [_alloc_mb] appends the layout of
    what remains. *)
Lemma alloc_loop_layout (chunk_mb : Z) :
  0 < chunk_mb ->
  forall (fuel k : nat) (blocks : group) (remain : Z),
    0 <= remain -> (Z.to_nat remain <= fuel)%nat ->
    alloc_loop fuel enough_memory k chunk_mb blocks remain =
      Ok (blocks ++ layout remain chunk_mb).
Proof.
  intros Hchunk. induction fuel as [|fuel IH]; intros k blocks remain Hpos Hfuel.
  - assert (remain = 0) by lia. subst remain. simpl.
    now rewrite layout_zero, app_nil_r.
  - simpl. destruct (remain >? 0) eqn:E.
    + rewrite Z.gtb_ltb in E. apply Z.ltb_lt in E.
      rewrite bytearray_new_cases by lia. unfold enough_memory at 1.
      rewrite IH by lia. rewrite <- app_assoc. do 2 f_equal. simpl.
      destruct (Z.min_spec chunk_mb remain) as [[Hlt ->] | [Hle ->]].
      * now rewrite (layout_step remain chunk_mb) by lia.
      * rewrite Z.sub_diag, layout_zero by assumption.
        destruct (Z.eq_dec remain chunk_mb) as [-> | Hne].
        -- rewrite layout_step by lia. now rewrite Z.sub_diag, layout_zero.
        -- now rewrite layout_small by lia.
    + rewrite Z.gtb_ltb in E. apply Z.ltb_ge in E.
      assert (remain = 0) by lia. subst remain.
      now rewrite layout_zero, app_nil_r.
Qed.

Lemma layout_length (mb chunk_mb : Z) :
  0 <= mb -> 0 < chunk_mb ->
  Z.of_nat (length (layout mb chunk_mb)) = (mb + chunk_mb - 1) / chunk_mb.
Proof.
  intros Hmb Hchunk. unfold layout.
  rewrite length_app, repeat_length, Nat2Z.inj_add.
  rewrite Z2Nat.id by (apply Z.div_pos; lia).
  pose proof (Z.div_mod mb chunk_mb ltac:(lia)) as Hdiv.
  pose proof (Z.mod_pos_bound mb chunk_mb Hchunk) as Hmod.
  destruct (Z.eqb_spec (mb mod chunk_mb) 0) as [Hz | Hnz]; simpl.
  - apply (Z.div_unique _ _ _ (chunk_mb - 1)); lia.
  - apply (Z.div_unique _ _ _ (mb mod chunk_mb - 1)); lia.
Qed.

(** X1.  With memory to spare and a positive chunk size,
    [_alloc_mb(mb, chunk_mb)] returns [mb // chunk_mb] blocks of
    [chunk_mb] megabytes followed, when [chunk_mb] does not divide
    [mb], by one block of [mb % chunk_mb] megabytes: the number of
    blocks is [mb / chunk_mb] rounded up. *)
Theorem alloc_mb_layout (mb chunk_mb : Z) :
  0 < mb -> 0 < chunk_mb ->
  _alloc_mb enough_memory mb chunk_mb = Ok (layout mb chunk_mb) /\
  Z.of_nat (length (layout mb chunk_mb)) = (mb + chunk_mb - 1) / chunk_mb.
Proof.
  intros Hmb Hchunk. split.
  - unfold _alloc_mb.
    now rewrite (alloc_loop_layout chunk_mb Hchunk) by lia.
  - apply layout_length; lia.
Qed.

Lemma alloc_loop_zero_chunk (fuel : nat) :
  forall (oom : oracle) (k : nat) (blocks : group) (remain : Z) (out : group),
    0 < remain -> alloc_loop fuel oom k 0 blocks remain <> Ok out.
Proof.
  induction fuel as [|fuel IH]; intros oom k blocks remain out Hpos; simpl.
  - destruct (remain >? 0) eqn:E; [discriminate|].
    rewrite Z.gtb_ltb in E. apply Z.ltb_ge in E. lia.
  - destruct (remain >? 0) eqn:E.
    + rewrite Z.min_l by lia. simpl.
      unfold bytearray_new. simpl.
      destruct (oom k); [discriminate|].
      rewrite Z.sub_0_r. now apply IH.
    + rewrite Z.gtb_ltb in E. apply Z.ltb_ge in E. lia.
Qed.

(** X2.  Called for a positive amount with a chunk size that is not
    positive, the loop of [_alloc_mb] never returns a group, however
    long it runs: a negative chunk size raises [ValueError] at the
    first allocation, and a chunk size of 0 keeps the loop turning on
    the same [remain]. *)
Theorem alloc_needs_positive_chunk (fuel : nat) (oom : oracle)
    (mb chunk_mb : Z) (out : group) :
  0 < mb -> chunk_mb <= 0 ->
  alloc_loop fuel oom O chunk_mb [] mb <> Ok out /\
  (chunk_mb < 0 -> _alloc_mb oom mb chunk_mb = Raised ValueError).
Proof.
  intros Hmb Hchunk.
  assert (Hneg : chunk_mb < 0 ->
            forall f, alloc_loop (S f) oom O chunk_mb [] mb = Raised ValueError).
  { intros Hlt f. simpl.
    destruct (mb >? 0) eqn:E;
      [|rewrite Z.gtb_ltb in E; apply Z.ltb_ge in E; lia].
    rewrite Z.min_l by lia. unfold bytearray_new.
    destruct (Z.ltb_spec (chunk_mb * 1024 * 1024) 0); [reflexivity | lia]. }
  split.
  - destruct (Z.eq_dec chunk_mb 0) as [-> | Hne].
    + now apply alloc_loop_zero_chunk.
    + destruct fuel as [|fuel].
      * simpl. destruct (mb >? 0) eqn:E; [discriminate|].
        rewrite Z.gtb_ltb in E. apply Z.ltb_ge in E. lia.
      * rewrite Hneg by lia. discriminate.
  - intros Hlt. unfold _alloc_mb.
    destruct (Z.to_nat mb) as [|f] eqn:Hf; [lia|]. now apply Hneg.
Qed.

(** * More on the release loops *)

Lemma lifo_cut_length (new old : pool) :
  lifo_cut new old -> (length new <= length old)%nat.
Proof.
  intros [[l ->] | [gs [g [d [l [Hg [Hd [-> ->]]]]]]]];
    rewrite !length_app; simpl; lia.
Qed.

Lemma lifo_cut_Forall (P : bytearray -> Prop) (new old : pool) :
  lifo_cut new old -> Forall (Forall P) old -> Forall (Forall P) new.
Proof.
  intros [[l ->] | [gs [g [d [l [Hg [Hd [-> ->]]]]]]]] H.
  - now apply Forall_app in H.
  - apply Forall_app in H. destruct H as [Hgs Hrest].
    inversion Hrest as [|? ? Hgd _]; subst.
    apply Forall_app in Hgd.
    apply Forall_app. split; [assumption | constructor; [tauto | constructor]].
Qed.

(** The inner loop stops less than one block below zero. *)
Lemma drain_group_left_bound (m : Z) (g : group) (to_free : Z)
    (kept : group) (left : Z) :
  Forall (fun b => mb_of b <= m) g ->
  drain_group (length g) g to_free = Some (kept, left) ->
  - m < to_free -> - m < left.
Proof.
  intros Hm Hrun Hstart.
  destruct (drain_group_spec g (length g) to_free (Nat.le_refl _))
    as [kept' [dropped [left' [Hrun' [Hg [Hleft [_ Hlast]]]]]]].
  rewrite Hrun in Hrun'. injection Hrun' as <- <-.
  destruct dropped as [|b rest].
  - unfold sum_mb, sum in Hleft. simpl in Hleft. lia.
  - specialize (Hlast b rest eq_refl).
    rewrite Hg in Hm. apply Forall_app in Hm. destruct Hm as [_ Hm].
    inversion Hm; subst. lia.
Qed.

(** So does the outer loop, whatever its fuel. *)
Lemma drain_pool_left_bound (m : Z) (_chunks : pool) :
  blocks_at_most m _chunks ->
  forall (fuel : nat) (to_free : Z) (new : pool) (left : Z),
    drain_pool fuel _chunks to_free = Some (new, left) ->
    - m < to_free -> - m < left.
Proof.
  unfold blocks_at_most.
  induction _chunks as [|g rest IH] using rev_ind;
    intros Hm fuel to_free new left Hrun Hstart.
  - rewrite drain_pool_eq, list_pop_nil in Hrun.
    destruct (to_free >? 0); injection Hrun as _ <-; assumption.
  - apply Forall_app in Hm. destruct Hm as [Hrest Hg].
    inversion Hg as [|? ? Hg' _]; subst.
    destruct (Z.ltb_spec 0 to_free) as [Hpos | Hle].
    2:{ rewrite drain_pool_done in Hrun by assumption.
        injection Hrun as _ <-. assumption. }
    rewrite drain_pool_eq, list_pop_snoc in Hrun.
    replace (to_free >? 0) with true in Hrun
      by (symmetry; rewrite Z.gtb_ltb; now apply Z.ltb_lt).
    destruct fuel as [|fuel]; [discriminate|].
    destruct (drain_group_spec g (length g) to_free (Nat.le_refl _))
      as [kept [dropped [left1 [Hgrun [Hsplit [Hleft1 [Hstop _]]]]]]].
    pose proof (drain_group_left_bound m g to_free kept left1 Hg' Hgrun Hstart)
      as Hbound.
    rewrite Hgrun in Hrun. destruct kept as [|b kept].
    + now apply (IH Hrest fuel left1 new left).
    + destruct Hstop as [Hnil | Hdone]; [discriminate|].
      rewrite drain_pool_done in Hrun by assumption.
      injection Hrun as _ <-. assumption.
Qed.

Lemma release_left_bound (m : Z) (_chunks : pool) (to_free : Z) :
  blocks_at_most m _chunks -> - m < to_free ->
  exists (new : pool) (left : Z),
    release _chunks to_free = Ok new /\
    lifo_cut new _chunks /\
    pool_mb new = pool_mb _chunks - (to_free - left) /\
    (new = [] \/ left <= 0) /\ - m < left.
Proof.
  intros Hm Hstart.
  destruct (drain_pool_spec _chunks (length _chunks) to_free (Nat.le_refl _))
    as [new [left [Hrun [Hcut [Hsum Hstop]]]]].
  exists new, left. unfold release. rewrite Hrun.
  repeat split; try assumption.
  now apply (drain_pool_left_bound m _chunks Hm _ _ _ _ Hrun).
Qed.

Lemma uniform_blocks_ok (c : Z) (_chunks : pool) :
  0 < c -> uniform c _chunks -> Forall (Forall block_ok) _chunks.
Proof.
  intros Hc Hu. unfold uniform in Hu.
  eapply Forall_impl; [|exact Hu]. intros g Hg.
  eapply Forall_impl; [|exact Hg]. intros b Hb. now exists c.
Qed.

Lemma uniform_at_most (c : Z) (_chunks : pool) :
  0 < c -> uniform c _chunks -> blocks_at_most c _chunks.
Proof.
  intros Hc Hu. unfold uniform in Hu.
  eapply Forall_impl; [|exact Hu]. intros g Hg.
  eapply Forall_impl; [|exact Hg]. intros b Hb. simpl in Hb.
  unfold mb_of. rewrite Hb, Z.div_mul by lia. lia.
Qed.

Lemma uniform_pool_mb (c : Z) (_chunks : pool) :
  0 < c -> uniform c _chunks ->
  pool_mb _chunks = c * Z.of_nat (length (concat _chunks)).
Proof.
  intros Hc Hu. apply Forall_concat in Hu. unfold pool_mb.
  induction Hu as [|b g Hb _ IH].
  - unfold sum_mb, sum. simpl. lia.
  - change (b :: g) with ([b] ++ g). rewrite sum_mb_app, IH.
    unfold sum_mb, sum, mb_of. simpl length. simpl map. simpl fold_right.
    rewrite Hb, Z.div_mul by lia. lia.
Qed.

Section ShrinkProperties.

Variable int : string -> option Z.

(** X3.  Whatever the pool holds, a valid Shrink succeeds and leaves a
    LIFO cut of it: groups and blocks are popped from the end only, the
    blocks that stay are the oldest ones, each as it was, and the
    number of groups does not grow. *)
Theorem shrink_pops_from_the_end (args : query) (_chunks : pool) (mb : Z) :
  int (args_get args "mb" "0") = Some mb -> 0 < mb ->
  exists (r : response) (_chunks' : pool),
    mem_free int args _chunks = (Ok r, _chunks') /\
    succeeded r = true /\
    lifo_cut _chunks' _chunks /\
    (exists freed : group, concat _chunks = concat _chunks' ++ freed) /\
    (length _chunks' <= length _chunks)%nat.
Proof.
  intros Hmb Hpos.
  destruct (mem_free_valid int args _chunks mb Hmb Hpos)
    as [new [left [Hrun [Hcut _]]]].
  eexists. exists new. split; [exact Hrun|].
  repeat split;
    [assumption | now apply lifo_cut_concat | now apply lifo_cut_length].
Qed.

(** X4.  A Shrink overshoots by less than one block: on a well-formed
    pool whose blocks hold at most [m] megabytes each, the total after
    a valid Shrink of [mb] is above [previous total - mb - m]. *)
Theorem shrink_overshoot_below_one_block (args : query) (_chunks : pool)
    (mb m : Z) :
  pool_ok _chunks -> blocks_at_most m _chunks -> 0 <= m ->
  int (args_get args "mb" "0") = Some mb -> 0 < mb ->
  exists (r : response) (_chunks' : pool),
    mem_free int args _chunks = (Ok r, _chunks') /\
    _current_mb _chunks - mb - m < _current_mb _chunks'.
Proof.
  intros Hok Hm Hm0 Hmb Hpos. unfold mem_free. rewrite Hmb.
  destruct (Z.leb_spec mb 0); [lia|].
  destruct (release_left_bound m _chunks mb Hm ltac:(lia))
    as [new [left [Hrun [Hcut [Hsum [_ Hbound]]]]]].
  rewrite Hrun. eexists. exists new. split; [reflexivity|].
  pose proof (lifo_cut_pool_ok new _chunks Hcut Hok) as Hnew.
  rewrite (current_mb_pool_mb _chunks) by apply Hok.
  rewrite (current_mb_pool_mb new) by apply Hnew. lia.
Qed.

(** X5.  On a pool whose blocks all hold [c] megabytes, a Shrink by a
    multiple of [c] that the pool can give is exact: the total after
    it is the previous total minus [mb]. *)
Theorem shrink_exact_on_uniform_blocks (args : query) (_chunks : pool)
    (mb c k : Z) :
  0 < c -> uniform c _chunks -> mb = k * c ->
  int (args_get args "mb" "0") = Some mb ->
  0 < mb <= _current_mb _chunks ->
  exists (r : response) (_chunks' : pool),
    mem_free int args _chunks = (Ok r, _chunks') /\
    field "total_mb" r = Some (JInt (_current_mb _chunks - mb)) /\
    _current_mb _chunks' = _current_mb _chunks - mb.
Proof.
  intros Hc Hu Hk Hmb Hrange. unfold mem_free. rewrite Hmb.
  destruct (Z.leb_spec mb 0); [lia|].
  destruct (release_left_bound c _chunks mb (uniform_at_most c _ Hc Hu)
              ltac:(lia))
    as [new [left [Hrun [Hcut [Hsum [Hstop Hbound]]]]]].
  rewrite Hrun.
  assert (Hunew : uniform c new) by (now apply (lifo_cut_Forall _ new _chunks)).
  assert (Htotal : _current_mb new = _current_mb _chunks - mb).
  { rewrite (current_mb_pool_mb _chunks) in * by now apply (uniform_blocks_ok c).
    rewrite (current_mb_pool_mb new) by now apply (uniform_blocks_ok c).
    pose proof (uniform_pool_mb c _chunks Hc Hu) as Hold.
    pose proof (uniform_pool_mb c new Hc Hunew) as Hnewmb.
    assert (Hle : left <= 0).
    { destruct Hstop as [-> | Hdone]; [|assumption].
      change (pool_mb []) with 0 in Hsum. lia. }
    assert (Hgoal : pool_mb new = pool_mb _chunks - mb + left) by lia.
    set (z := k - Z.of_nat (length (concat _chunks))
                + Z.of_nat (length (concat new))).
    assert (Hmul : left = c * z) by (unfold z; lia).
    clear Hold Hnewmb Hsum.
    assert (Hz0 : 0 <= z) by nia.
    assert (Hz1 : z <= 0) by nia.
    assert (z = 0) by lia. subst left. rewrite Hgoal. nia. }
  eexists. exists new. split; [reflexivity|].
  split; [|assumption]. unfold field. simpl. now rewrite Htotal.
Qed.

End ShrinkProperties.

(** * More on the handlers *)

Lemma args_get_default (args : query) (key default : string) :
  (forall v, ~ In (key, v) args) -> args_get args key default = default.
Proof.
  induction args as [|[k v] args IH]; intros Hmiss; simpl; [reflexivity|].
  destruct (String.eqb_spec k key) as [-> | Hne].
  - exfalso. apply (Hmiss v). now left.
  - apply IH. intros v' Hin. apply (Hmiss v'). now right.
Qed.

Section MoreHandlerProperties.

Variable int : string -> option Z.

(** Converge to the current total. *)
Lemma mem_set_noop (oom : oracle) (args : query) (_chunks : pool) (target : Z) :
  int (args_get args "mb" "0") = Some target ->
  0 <= target -> target = _current_mb _chunks ->
  mem_set int oom args _chunks =
    (Ok (reply (jsonify
       [("ok", JBool true); ("total_mb", JInt target); ("note", JStr "已達目標")])),
     _chunks).
Proof.
  intros Htarget Hpos Heq. unfold mem_set. rewrite Htarget.
  destruct (Z.ltb_spec target 0); [lia|].
  rewrite <- Heq, Z.eqb_refl. reflexivity.
Qed.

(** Converge upwards with memory to spare. *)
Lemma mem_set_up (args : query) (_chunks : pool) (target : Z) :
  int (args_get args "mb" "0") = Some target ->
  0 <= target -> _current_mb _chunks < target ->
  mem_set int enough_memory args _chunks =
    (Ok (reply (jsonify [("ok", JBool true); ("total_mb", JInt target)])),
     _chunks ++ [layout (target - _current_mb _chunks) CHUNK_MB_DEFAULT]) /\
  _current_mb
    (_chunks ++ [layout (target - _current_mb _chunks) CHUNK_MB_DEFAULT]) = target.
Proof.
  intros Htarget Hpos Hup.
  assert (Hrun : _alloc_mb enough_memory (target - _current_mb _chunks)
                   CHUNK_MB_DEFAULT =
                 Ok (layout (target - _current_mb _chunks) CHUNK_MB_DEFAULT)).
  { unfold _alloc_mb. now rewrite (alloc_loop_layout CHUNK_MB_DEFAULT eq_refl) by lia. }
  destruct (alloc_mb_inv enough_memory (target - _current_mb _chunks)
              CHUNK_MB_DEFAULT _ ltac:(lia) eq_refl Hrun) as [Hok [Hsum _]].
  assert (Htotal : _current_mb
            (_chunks ++ [layout (target - _current_mb _chunks) CHUNK_MB_DEFAULT])
            = target).
  { rewrite current_mb_snoc by assumption. lia. }
  split; [|assumption].
  unfold mem_set. rewrite Htarget.
  destruct (Z.ltb_spec target 0); [lia|].
  destruct (Z.eqb_spec target (_current_mb _chunks)); [lia|].
  rewrite Z.gtb_ltb. destruct (Z.ltb_spec (_current_mb _chunks) target); [|lia].
  rewrite Hrun. cbv zeta. now rewrite Htotal.
Qed.

(** Converge downwards. *)
Lemma mem_set_down (oom : oracle) (args : query) (_chunks : pool) (target : Z) :
  int (args_get args "mb" "0") = Some target ->
  0 <= target < _current_mb _chunks ->
  exists (new : pool) (left : Z),
    mem_set int oom args _chunks =
      (Ok (reply (jsonify
         [("ok", JBool true); ("total_mb", JInt (_current_mb new))])), new) /\
    lifo_cut new _chunks /\
    pool_mb new = pool_mb _chunks - (_current_mb _chunks - target - left) /\
    (new = [] \/ left <= 0).
Proof.
  intros Htarget Hrange. unfold mem_set. rewrite Htarget.
  destruct (Z.ltb_spec target 0); [lia|].
  destruct (Z.eqb_spec target (_current_mb _chunks)); [lia|].
  rewrite Z.gtb_ltb. destruct (Z.ltb_spec (_current_mb _chunks) target); [lia|].
  destruct (release_returns _chunks (_current_mb _chunks - target))
    as [new [left [Hrun Hnew]]].
  rewrite Hrun. now exists new, left.
Qed.

(** The total left by a Converge downwards on a well-formed pool. *)
Lemma mem_set_down_total (oom : oracle) (args : query) (_chunks : pool)
    (target : Z) :
  pool_ok _chunks ->
  int (args_get args "mb" "0") = Some target ->
  0 <= target < _current_mb _chunks ->
  exists new : pool,
    mem_set int oom args _chunks =
      (Ok (reply (jsonify
         [("ok", JBool true); ("total_mb", JInt (_current_mb new))])), new) /\
    pool_ok new /\ 0 <= _current_mb new <= target.
Proof.
  intros Hok Htarget Hrange.
  destruct (mem_set_down oom args _chunks target Htarget Hrange)
    as [new [left [Hrun [Hcut [Hsum Hstop]]]]].
  pose proof (lifo_cut_pool_ok new _chunks Hcut Hok) as Hnew.
  exists new. split; [assumption|]. split; [assumption|].
  rewrite (current_mb_pool_mb new) by apply Hnew.
  rewrite (current_mb_pool_mb _chunks) in * by apply Hok.
  pose proof (pool_mb_nonneg new ltac:(apply Hnew)).
  destruct Hstop as [-> | Hdone]; [|lia].
  change (pool_mb []) with 0. lia.
Qed.

(** A valid Grow with memory to spare, in full. *)
Lemma mem_add_layout (args : query) (_chunks : pool) (mb chunk : Z) :
  int (args_get args "mb" "100") = Some mb ->
  int (args_get args "chunk" (str CHUNK_MB_DEFAULT)) = Some chunk ->
  0 < mb <= 4096 -> 0 < chunk ->
  mem_add int enough_memory args _chunks =
    (Ok (reply (jsonify
       [("ok", JBool true); ("added_mb", JInt mb); ("chunk_mb", JInt chunk);
        ("total_mb", JInt (_current_mb _chunks + mb))])),
     _chunks ++ [layout mb chunk]).
Proof.
  intros Hmb Hchunk Hrange Hpos.
  assert (Hrun : _alloc_mb enough_memory mb chunk = Ok (layout mb chunk)).
  { unfold _alloc_mb. now rewrite (alloc_loop_layout chunk Hpos) by lia. }
  destruct (alloc_mb_inv enough_memory mb chunk _ ltac:(lia) Hpos Hrun)
    as [Hok [Hsum _]].
  unfold mem_add. rewrite Hmb, Hchunk. settle_tests.
  rewrite Hrun. cbv zeta. rewrite current_mb_snoc by assumption.
  now rewrite Hsum.
Qed.

(** X6.  A Grow of more than 4096 MB with a positive chunk size is
    rejected with [LimitExceeded] before anything is allocated:
    whatever the memory would do, the pool stays as it was. *)
Theorem grow_over_ceiling_rejected (oom : oracle) (args : query)
    (_chunks : pool) (mb chunk : Z) :
  int (args_get args "mb" "100") = Some mb ->
  int (args_get args "chunk" (str CHUNK_MB_DEFAULT)) = Some chunk ->
  4096 < mb -> 0 < chunk ->
  exists r : response,
    mem_add int oom args _chunks = (Ok r, _chunks) /\
    rejection r = Some LimitExceeded /\ succeeded r = false.
Proof.
  intros Hmb Hchunk Hover Hpos. unfold mem_add. rewrite Hmb, Hchunk.
  settle_tests. eexists. repeat split.
Qed.

(** X7.  A valid Grow with memory to spare leaves the groups it found
    untouched and appends exactly one group, laid out in blocks of
    [chunk] megabytes with a smaller last block when [chunk] does not
    divide [mb]; it reports the amount and the chunk size it was
    asked. *)
Theorem grow_appends_one_laid_out_group (args : query) (_chunks : pool)
    (mb chunk : Z) :
  int (args_get args "mb" "100") = Some mb ->
  int (args_get args "chunk" (str CHUNK_MB_DEFAULT)) = Some chunk ->
  0 < mb <= 4096 -> 0 < chunk ->
  exists r : response,
    mem_add int enough_memory args _chunks =
      (Ok r, _chunks ++ [layout mb chunk]) /\
    field "added_mb" r = Some (JInt mb) /\
    field "chunk_mb" r = Some (JInt chunk) /\
    groups (_chunks ++ [layout mb chunk]) =
      Some (JInt (Z.of_nat (length _chunks) + 1)).
Proof.
  intros Hmb Hchunk Hrange Hpos.
  rewrite (mem_add_layout args _chunks mb chunk Hmb Hchunk Hrange Hpos).
  eexists. split; [reflexivity|]. repeat split.
  unfold groups, mem_status, field. simpl.
  rewrite length_app. simpl. do 2 f_equal. lia.
Qed.

(** X8.  Converge to the total the pool already has changes nothing,
    allocates nothing, and says so in a note. *)
Theorem converge_to_current_is_noop (oom : oracle) (args : query)
    (_chunks : pool) (target : Z) :
  int (args_get args "mb" "0") = Some target ->
  0 <= target -> target = _current_mb _chunks ->
  exists r : response,
    mem_set int oom args _chunks = (Ok r, _chunks) /\
    succeeded r = true /\
    field "total_mb" r = Some (JInt target) /\
    field "note" r = Some (JStr "已達目標").
Proof.
  intros Htarget Hpos Heq.
  rewrite (mem_set_noop oom args _chunks target Htarget Hpos Heq).
  eexists. repeat split.
Qed.

(** X9.  Converge to a target above the current total, with memory to
    spare, lands on the target exactly, however large the difference:
    it appends one group of the difference, laid out in blocks of the
    default chunk size, and leaves the older groups untouched. *)
Theorem converge_up_exact (args : query) (_chunks : pool) (target : Z) :
  int (args_get args "mb" "0") = Some target ->
  0 <= target -> _current_mb _chunks < target ->
  exists r : response,
    mem_set int enough_memory args _chunks =
      (Ok r, _chunks ++ [layout (target - _current_mb _chunks) CHUNK_MB_DEFAULT]) /\
    succeeded r = true /\
    field "total_mb" r = Some (JInt target) /\
    _current_mb
      (_chunks ++ [layout (target - _current_mb _chunks) CHUNK_MB_DEFAULT]) =
      target.
Proof.
  intros Htarget Hpos Hup.
  destruct (mem_set_up args _chunks target Htarget Hpos Hup) as [Hrun Htotal].
  rewrite Hrun. eexists. repeat split. assumption.
Qed.

(** X10.  When an allocation that a Converge upwards attempts fails,
    the [MemoryError] leaves the handler uncaught and the pool is as it
    was. *)
Theorem converge_memory_error_escapes (oom : oracle) (args : query)
    (_chunks : pool) (target : Z) (j : nat) :
  int (args_get args "mb" "0") = Some target ->
  0 <= target -> _current_mb _chunks < target ->
  oom j = true ->
  Z.of_nat j * CHUNK_MB_DEFAULT < target - _current_mb _chunks ->
  mem_set int oom args _chunks = (Raised MemoryError, _chunks).
Proof.
  intros Htarget Hpos Hup Hfail Hreach. unfold mem_set. rewrite Htarget.
  destruct (Z.ltb_spec target 0); [lia|].
  destruct (Z.eqb_spec target (_current_mb _chunks)); [lia|].
  rewrite Z.gtb_ltb. destruct (Z.ltb_spec (_current_mb _chunks) target); [|lia].
  unfold _alloc_mb.
  now rewrite (alloc_loop_oom oom CHUNK_MB_DEFAULT eq_refl
                 (Z.to_nat (target - _current_mb _chunks)) O j []
                 (target - _current_mb _chunks)).
Qed.

(** Converge to zero on a well-formed pool. *)
Lemma mem_set_zero (oom : oracle) (args : query) (_chunks : pool) :
  pool_ok _chunks ->
  int (args_get args "mb" "0") = Some 0 ->
  mem_set int oom args _chunks =
    (Ok (reply (jsonify [("ok", JBool true); ("total_mb", JInt 0)])), []) \/
  mem_set int oom args _chunks =
    (Ok (reply (jsonify
       [("ok", JBool true); ("total_mb", JInt 0); ("note", JStr "已達目標")])),
     []).
Proof.
  intros Hok Hzero.
  assert (Hcurr : 0 <= _current_mb _chunks).
  { rewrite current_mb_pool_mb by apply Hok. apply pool_mb_nonneg, Hok. }
  destruct (Z.eq_dec (_current_mb _chunks) 0) as [Hnone | Hsome].
  - right.
    assert (Hnil : _chunks = []).
    { apply pool_ok_empty; [assumption|].
      rewrite <- current_mb_pool_mb by apply Hok. lia. }
    rewrite (mem_set_noop oom args _chunks 0 Hzero) by lia. now rewrite Hnil.
  - left.
    destruct (mem_set_down_total oom args _chunks 0 Hok Hzero ltac:(lia))
      as [new [Hrun [Hnew Htotal]]].
    assert (Hnil : new = []).
    { apply pool_ok_empty; [assumption|].
      rewrite <- current_mb_pool_mb by apply Hnew. lia. }
    rewrite Hrun, Hnil. reflexivity.
Qed.

(** X11.  On a well-formed pool, Converge to 0 does what Clear does:
    it succeeds, leaves no group, and reports a total of 0. *)
Theorem converge_to_zero_clears (oom : oracle) (args : query) (_chunks : pool) :
  pool_ok _chunks ->
  int (args_get args "mb" "0") = Some 0 ->
  exists r : response,
    mem_set int oom args _chunks = (Ok r, snd (mem_clear _chunks)) /\
    succeeded r = true /\
    field "total_mb" r = Some (JInt 0) /\
    total_mb (fst (mem_clear _chunks)) = Some (JInt 0).
Proof.
  intros Hok Hzero.
  destruct (mem_set_zero oom args _chunks Hok Hzero) as [Hrun | Hrun];
    rewrite Hrun; eexists; repeat split.
Qed.

(** X12.  On a well-formed pool and with memory to spare, two Converge
    requests to the same target in a row leave exactly the target:
    what the first one may have freed too much, the second one
    allocates again. *)
Theorem converge_twice_lands_on_target (args : query) (_chunks : pool)
    (target : Z) :
  pool_ok _chunks ->
  int (args_get args "mb" "0") = Some target ->
  0 <= target ->
  exists (r1 r2 : response) (_chunks1 _chunks2 : pool),
    mem_set int enough_memory args _chunks = (Ok r1, _chunks1) /\
    mem_set int enough_memory args _chunks1 = (Ok r2, _chunks2) /\
    succeeded r2 = true /\
    field "total_mb" r2 = Some (JInt target) /\
    _current_mb _chunks2 = target.
Proof.
  intros Hok Htarget Hpos.
  assert (Hsettled : forall p : pool,
            _current_mb p <= target ->
            exists (r : response) (p' : pool),
              mem_set int enough_memory args p = (Ok r, p') /\
              succeeded r = true /\
              field "total_mb" r = Some (JInt target) /\
              _current_mb p' = target).
  { intros p Hle. destruct (Z.eq_dec target (_current_mb p)) as [Heq | Hne].
    - rewrite (mem_set_noop enough_memory args p target Htarget Hpos Heq).
      eexists. exists p. repeat split. now symmetry.
    - destruct (mem_set_up args p target Htarget Hpos ltac:(lia))
        as [Hrun Htotal].
      rewrite Hrun. eexists. eexists. split; [reflexivity|].
      repeat split. assumption. }
  destruct (Z.le_gt_cases (_current_mb _chunks) target) as [Hle | Hgt].
  - destruct (Hsettled _chunks Hle) as [r1 [p1 [Hrun1 [_ [_ Htotal1]]]]].
    destruct (Hsettled p1 ltac:(lia)) as [r2 [p2 Hrun2]].
    now exists r1, r2, p1, p2.
  - destruct (mem_set_down_total enough_memory args _chunks target Hok Htarget
                ltac:(lia)) as [new [Hrun1 [_ Htotal1]]].
    destruct (Hsettled new ltac:(lia)) as [r2 [p2 Hrun2]].
    eexists. exists r2, new, p2. split; [exact Hrun1 | exact Hrun2].
Qed.

(** X13.  A request that does not end in a success reply, because it is
    rejected, because it only reads, or because it raises, leaves the
    pool exactly as it was: no handler changes the pool part-way. *)
Theorem failed_request_leaves_pool (r : route) (oom : oracle) (args : query)
    (_chunks _chunks' : pool) (out : result response) :
  serve int r oom args _chunks = (out, _chunks') ->
  not_a_success out ->
  _chunks' = _chunks.
Proof.
  destruct r; simpl.
  - now intros [= _ <-].
  - unfold mem_add.
    destruct (int (args_get args "mb" "100")) as [mb|]; [|now intros [= _ <-]].
    destruct (int (args_get args "chunk" (str CHUNK_MB_DEFAULT))) as [chunk|];
      [|now intros [= _ <-]].
    destruct ((mb <=? 0) || (chunk <=? 0)); [now intros [= _ <-]|].
    destruct (mb >? 4096); [now intros [= _ <-]|].
    destruct (_alloc_mb oom mb chunk); [|now intros [= _ <-] ..].
    intros [= <- _] Hfail. discriminate Hfail.
  - unfold mem_set.
    destruct (int (args_get args "mb" "0")) as [target|]; [|now intros [= _ <-]].
    destruct (target <? 0); [now intros [= _ <-]|].
    destruct (target =? _current_mb _chunks); [now intros [= _ <-]|].
    destruct (target >? _current_mb _chunks).
    + destruct (_alloc_mb oom (target - _current_mb _chunks) CHUNK_MB_DEFAULT);
        [|now intros [= _ <-] ..].
      intros [= <- _] Hfail. discriminate Hfail.
    + destruct (release _chunks (_current_mb _chunks - target));
        [|now intros [= _ <-] ..].
      intros [= <- _] Hfail. discriminate Hfail.
  - unfold mem_free.
    destruct (int (args_get args "mb" "0")) as [mb|]; [|now intros [= _ <-]].
    destruct (mb <=? 0); [now intros [= _ <-]|].
    destruct (release _chunks mb); [|now intros [= _ <-] ..].
    intros [= <- _] Hfail. discriminate Hfail.
  - intros [= <- _] Hfail. discriminate Hfail.
  - now intros [= _ <-].
Qed.

(** X14.  In every pool the application can hold, each block is a
    positive whole number of megabytes, so the total that the handlers
    report loses nothing to the rounding of [_current_mb]: the bytes
    held are that total times 1 MiB, and the total is not negative. *)
Theorem reachable_total_is_exact (_chunks : pool) :
  reachable int _chunks ->
  Forall (Forall block_ok) _chunks /\
  sum (map len (concat _chunks)) = _current_mb _chunks * (1024 * 1024) /\
  0 <= _current_mb _chunks.
Proof.
  intros Hreach. destruct (reachable_pool_ok int _chunks Hreach) as [_ Hok].
  split; [assumption|].
  rewrite current_mb_pool_mb by assumption. split.
  - unfold pool_mb. apply sum_len_mb. now apply Forall_concat.
  - now apply pool_mb_nonneg.
Qed.

(** X15.  A request that carries no [mb] and no [chunk] parameter is
    served with the defaults of the handlers: [/mem/add] adds 100 MB in
    blocks of 8, [/mem/free] is rejected since its default amount is
    0, and [/mem/set] converges to 0 and so empties a well-formed
    pool. *)
Theorem missing_parameters_take_defaults (oom : oracle) (args : query)
    (_chunks : pool) :
  (forall v, ~ In ("mb", v) args) -> (forall v, ~ In ("chunk", v) args) ->
  int "100" = Some 100 -> int (str CHUNK_MB_DEFAULT) = Some 8 ->
  int "0" = Some 0 ->
  pool_ok _chunks ->
  (snd (mem_add int enough_memory args _chunks) = _chunks ++ [layout 100 8] /\
   total_mb (fst (mem_add int enough_memory args _chunks)) =
     Some (JInt (_current_mb _chunks + 100))) /\
  (exists r : response,
      mem_free int args _chunks = (Ok r, _chunks) /\
      rejection r = Some InvalidArgument) /\
  snd (mem_set int oom args _chunks) = [].
Proof.
  intros Hmb Hchunk H100 H8 H0 Hok. repeat split.
  - rewrite (mem_add_layout args _chunks 100 8);
      [reflexivity | now rewrite args_get_default
      | now rewrite args_get_default | lia | lia].
  - rewrite (mem_add_layout args _chunks 100 8);
      [reflexivity | now rewrite args_get_default
      | now rewrite args_get_default | lia | lia].
  - unfold mem_free. rewrite args_get_default by assumption. rewrite H0.
    eexists. split; reflexivity.
  - assert (Hzero : int (args_get args "mb" "0") = Some 0)
      by (now rewrite args_get_default).
    destruct (mem_set_zero oom args _chunks Hok Hzero) as [Hrun | Hrun];
      now rewrite Hrun.
Qed.

End MoreHandlerProperties.

(** * What a handler can end in *)

(** With a positive chunk size [_alloc_mb] returns a group or raises
    [MemoryError], nothing else. *)
Lemma alloc_loop_outcome (oom : oracle) (chunk_mb : Z) :
  0 < chunk_mb ->
  forall (fuel k : nat) (blocks : group) (remain : Z),
    (Z.to_nat remain <= fuel)%nat ->
    (exists out, alloc_loop fuel oom k chunk_mb blocks remain = Ok out) \/
    alloc_loop fuel oom k chunk_mb blocks remain = Raised MemoryError.
Proof.
  intros Hchunk. induction fuel as [|fuel IH]; intros k blocks remain Hfuel.
  - simpl. destruct (remain >? 0) eqn:E; [|left; now eexists].
    rewrite Z.gtb_ltb in E. apply Z.ltb_lt in E. lia.
  - simpl. destruct (remain >? 0) eqn:E; [|left; now eexists].
    rewrite Z.gtb_ltb in E. apply Z.ltb_lt in E.
    rewrite bytearray_new_cases by lia.
    destruct (oom k); [now right|]. apply IH. lia.
Qed.

Section Outcomes.

Variable int : string -> option Z.

(** X16.  Every request is served to an end, and the only exception
    that can leave a handler is [MemoryError]: a parameter that [int]
    refuses is always answered with a reply, no allocation is ever
    asked with a negative size, and no loop runs for ever.  With
    memory to spare every request gets a reply. *)
Theorem only_memory_error_escapes (r : route) (oom : oracle) (args : query)
    (_chunks : pool) :
  ((exists resp, fst (serve int r oom args _chunks) = Ok resp) \/
   fst (serve int r oom args _chunks) = Raised MemoryError) /\
  (exists resp, fst (serve int r enough_memory args _chunks) = Ok resp).
Proof.
  assert (Halloc : forall (m : oracle) (mb chunk : Z), 0 < chunk ->
            (exists g, _alloc_mb m mb chunk = Ok g) \/
            _alloc_mb m mb chunk = Raised MemoryError).
  { intros m mb chunk Hpos. unfold _alloc_mb.
    now apply alloc_loop_outcome. }
  assert (Hspare : forall (mb chunk : Z), 0 < chunk ->
            exists g, _alloc_mb enough_memory mb chunk = Ok g).
  { intros mb chunk Hpos. unfold _alloc_mb.
    now apply alloc_loop_returns. }
  assert (Hserve : forall m : oracle,
            (forall mb chunk, 0 < chunk ->
               (exists g, _alloc_mb m mb chunk = Ok g) \/
               _alloc_mb m mb chunk = Raised MemoryError) ->
            (exists resp, fst (serve int r m args _chunks) = Ok resp) \/
            fst (serve int r m args _chunks) = Raised MemoryError).
  { intros m Hm. destruct r; simpl; try (left; now eexists).
    - unfold mem_add.
      destruct (int (args_get args "mb" "100")) as [mb|]; [|left; now eexists].
      destruct (int (args_get args "chunk" (str CHUNK_MB_DEFAULT))) as [chunk|];
        [|left; now eexists].
      destruct (Z.leb_spec mb 0); [left; now eexists|].
      destruct (Z.leb_spec chunk 0); [left; now eexists|]. simpl.
      destruct (mb >? 4096); [left; now eexists|].
      destruct (Hm mb chunk ltac:(lia)) as [[g ->] | ->];
        [left; now eexists | now right].
    - unfold mem_set.
      destruct (int (args_get args "mb" "0")) as [target|]; [|left; now eexists].
      destruct (target <? 0); [left; now eexists|].
      destruct (target =? _current_mb _chunks); [left; now eexists|].
      destruct (target >? _current_mb _chunks).
      + destruct (Hm (target - _current_mb _chunks) CHUNK_MB_DEFAULT eq_refl)
          as [[g ->] | ->]; [left; now eexists | now right].
      + destruct (release_returns _chunks (_current_mb _chunks - target))
          as [new [left [-> _]]]. left. now eexists.
    - unfold mem_free.
      destruct (int (args_get args "mb" "0")) as [mb|]; [|left; now eexists].
      destruct (mb <=? 0); [left; now eexists|].
      destruct (release_returns _chunks mb) as [new [left [-> _]]].
      left. now eexists. }
  split.
  - apply Hserve. now apply Halloc.
  - destruct (Hserve enough_memory
                (fun mb chunk Hpos => or_introl (Hspare mb chunk Hpos)))
      as [Hreply | Hraise]; [assumption|].
    exfalso. revert Hraise. destruct r; simpl; try discriminate.
    + unfold mem_add.
      destruct (int (args_get args "mb" "100")) as [mb|]; [|discriminate].
      destruct (int (args_get args "chunk" (str CHUNK_MB_DEFAULT))) as [chunk|];
        [|discriminate].
      destruct (Z.leb_spec mb 0); [discriminate|].
      destruct (Z.leb_spec chunk 0); [discriminate|]. simpl.
      destruct (mb >? 4096); [discriminate|].
      destruct (Hspare mb chunk ltac:(lia)) as [g ->]. discriminate.
    + unfold mem_set.
      destruct (int (args_get args "mb" "0")) as [target|]; [|discriminate].
      destruct (target <? 0); [discriminate|].
      destruct (target =? _current_mb _chunks); [discriminate|].
      destruct (target >? _current_mb _chunks).
      * destruct (Hspare (target - _current_mb _chunks) CHUNK_MB_DEFAULT eq_refl)
          as [g ->]. discriminate.
      * destruct (release_returns _chunks (_current_mb _chunks - target))
          as [new [left [-> _]]]. discriminate.
    + unfold mem_free.
      destruct (int (args_get args "mb" "0")) as [mb|]; [|discriminate].
      destruct (mb <=? 0); [discriminate|].
      destruct (release_returns _chunks mb) as [new [left [-> _]]].
      discriminate.
Qed.

End Outcomes.

(** * The further results at concrete requests *)

Lemma uniform_pool_uniform : uniform 4 uniform_pool.
Proof. repeat constructor. Qed.

Lemma sample_pool_at_most : blocks_at_most 8 sample_pool.
Proof. repeat constructor; vm_compute; discriminate. Qed.

Lemma alloc_mb_layout_witness :
  _alloc_mb enough_memory 20 8 = Ok (layout 20 8) /\
  Z.of_nat (length (layout 20 8)) = (20 + 8 - 1) / 8.
Proof. apply (alloc_mb_layout 20 8); lia. Defined.

Lemma alloc_needs_positive_chunk_witness :
  alloc_loop 5 second_fails O (-2) [] 3 <> Ok [] /\
  (-2 < 0 -> _alloc_mb second_fails 3 (-2) = Raised ValueError).
Proof.
  apply (alloc_needs_positive_chunk 5 second_fails 3 (-2) []); lia.
Defined.

Lemma shrink_pops_from_the_end_witness :
  exists (r : response) (_chunks' : pool),
    mem_free int_decimal [("mb", "5")] sample_pool = (Ok r, _chunks') /\
    succeeded r = true /\
    lifo_cut _chunks' sample_pool /\
    (exists freed : group, concat sample_pool = concat _chunks' ++ freed) /\
    (length _chunks' <= length sample_pool)%nat.
Proof.
  apply (shrink_pops_from_the_end int_decimal [("mb", "5")] sample_pool 5);
    [reflexivity | lia].
Defined.

Lemma shrink_overshoot_below_one_block_witness :
  pool_ok sample_pool /\ blocks_at_most 8 sample_pool /\
  exists (r : response) (_chunks' : pool),
    mem_free int_decimal [("mb", "5")] sample_pool = (Ok r, _chunks') /\
    _current_mb sample_pool - 5 - 8 < _current_mb _chunks'.
Proof.
  split; [apply sample_pool_ok|]. split; [apply sample_pool_at_most|].
  apply (shrink_overshoot_below_one_block int_decimal [("mb", "5")]
           sample_pool 5 8);
    [apply sample_pool_ok | apply sample_pool_at_most | lia | reflexivity | lia].
Defined.

Lemma shrink_exact_on_uniform_blocks_witness :
  uniform 4 uniform_pool /\ 0 < 8 <= _current_mb uniform_pool /\
  exists (r : response) (_chunks' : pool),
    mem_free int_decimal [("mb", "8")] uniform_pool = (Ok r, _chunks') /\
    field "total_mb" r = Some (JInt (_current_mb uniform_pool - 8)) /\
    _current_mb _chunks' = _current_mb uniform_pool - 8.
Proof.
  assert (Hrange : 0 < 8 <= _current_mb uniform_pool)
    by (split; [lia | vm_compute; discriminate]).
  split; [apply uniform_pool_uniform|]. split; [exact Hrange|].
  apply (shrink_exact_on_uniform_blocks int_decimal [("mb", "8")]
           uniform_pool 8 4 2);
    [lia | apply uniform_pool_uniform | reflexivity | reflexivity
    | exact Hrange].
Defined.

Lemma grow_over_ceiling_rejected_witness :
  exists r : response,
    mem_add int_decimal second_fails [("mb", "4097"); ("chunk", "64")]
      sample_pool = (Ok r, sample_pool) /\
    rejection r = Some LimitExceeded /\ succeeded r = false.
Proof.
  apply (grow_over_ceiling_rejected int_decimal second_fails
           [("mb", "4097"); ("chunk", "64")] sample_pool 4097 64);
    [reflexivity | reflexivity | lia | lia].
Defined.

Lemma grow_appends_one_laid_out_group_witness :
  exists r : response,
    mem_add int_decimal enough_memory [("mb", "20"); ("chunk", "3")]
      sample_pool = (Ok r, sample_pool ++ [layout 20 3]) /\
    field "added_mb" r = Some (JInt 20) /\
    field "chunk_mb" r = Some (JInt 3) /\
    groups (sample_pool ++ [layout 20 3]) =
      Some (JInt (Z.of_nat (length sample_pool) + 1)).
Proof.
  apply (grow_appends_one_laid_out_group int_decimal
           [("mb", "20"); ("chunk", "3")] sample_pool 20 3);
    [reflexivity | reflexivity | lia | lia].
Defined.

Lemma converge_to_current_is_noop_witness :
  exists r : response,
    mem_set int_decimal second_fails [("mb", "20")] sample_pool =
      (Ok r, sample_pool) /\
    succeeded r = true /\
    field "total_mb" r = Some (JInt 20) /\
    field "note" r = Some (JStr "已達目標").
Proof.
  apply (converge_to_current_is_noop int_decimal second_fails [("mb", "20")]
           sample_pool 20);
    [reflexivity | lia | reflexivity].
Defined.

Lemma converge_up_exact_witness :
  exists r : response,
    mem_set int_decimal enough_memory [("mb", "5000")] sample_pool =
      (Ok r,
       sample_pool ++ [layout (5000 - _current_mb sample_pool) CHUNK_MB_DEFAULT]) /\
    succeeded r = true /\
    field "total_mb" r = Some (JInt 5000) /\
    _current_mb
      (sample_pool ++ [layout (5000 - _current_mb sample_pool) CHUNK_MB_DEFAULT]) =
      5000.
Proof.
  apply (converge_up_exact int_decimal [("mb", "5000")] sample_pool 5000);
    [reflexivity | lia | reflexivity].
Defined.

Lemma converge_memory_error_escapes_witness :
  mem_set int_decimal second_fails [("mb", "40")] sample_pool =
    (Raised MemoryError, sample_pool).
Proof.
  apply (converge_memory_error_escapes int_decimal second_fails [("mb", "40")]
           sample_pool 40 1%nat);
    [reflexivity | lia | reflexivity | reflexivity | reflexivity].
Defined.

Lemma converge_to_zero_clears_witness :
  exists r : response,
    mem_set int_decimal second_fails [("mb", "0")] sample_pool =
      (Ok r, snd (mem_clear sample_pool)) /\
    succeeded r = true /\
    field "total_mb" r = Some (JInt 0) /\
    total_mb (fst (mem_clear sample_pool)) = Some (JInt 0).
Proof.
  apply (converge_to_zero_clears int_decimal second_fails [("mb", "0")]
           sample_pool);
    [apply sample_pool_ok | reflexivity].
Defined.

Lemma converge_twice_lands_on_target_witness :
  exists (r1 r2 : response) (_chunks1 _chunks2 : pool),
    mem_set int_decimal enough_memory [("mb", "10")] sample_pool =
      (Ok r1, _chunks1) /\
    mem_set int_decimal enough_memory [("mb", "10")] _chunks1 =
      (Ok r2, _chunks2) /\
    succeeded r2 = true /\
    field "total_mb" r2 = Some (JInt 10) /\
    _current_mb _chunks2 = 10.
Proof.
  apply (converge_twice_lands_on_target int_decimal [("mb", "10")]
           sample_pool 10);
    [apply sample_pool_ok | reflexivity | lia].
Defined.

Lemma failed_request_leaves_pool_witness :
  not_a_success (Raised MemoryError) /\
  snd (serve int_decimal PostMemAdd second_fails [("mb", "20")] sample_pool) =
    sample_pool.
Proof.
  split; [exact I|].
  apply (failed_request_leaves_pool int_decimal PostMemAdd second_fails
           [("mb", "20")] sample_pool _ (Raised MemoryError));
    [reflexivity | exact I].
Defined.

Lemma reachable_total_is_exact_witness :
  reachable int_decimal [[{| len := 3 * 1024 * 1024 |}]] /\
  Forall (Forall block_ok) [[{| len := 3 * 1024 * 1024 |}]] /\
  sum (map len (concat [[{| len := 3 * 1024 * 1024 |}]])) =
    _current_mb [[{| len := 3 * 1024 * 1024 |}]] * (1024 * 1024) /\
  0 <= _current_mb [[{| len := 3 * 1024 * 1024 |}]].
Proof.
  assert (Hreach : reachable int_decimal [[{| len := 3 * 1024 * 1024 |}]]).
  { apply (reach_serve int_decimal PostMemAdd enough_memory [("mb", "3")]
             [] _ (fst (mem_add int_decimal enough_memory [("mb", "3")] []))).
    - apply reach_start.
    - reflexivity. }
  split; [exact Hreach|].
  apply (reachable_total_is_exact int_decimal _ Hreach).
Defined.

Lemma missing_parameters_take_defaults_witness :
  (snd (mem_add int_decimal enough_memory [("verbose", "1")] sample_pool) =
     sample_pool ++ [layout 100 8] /\
   total_mb (fst (mem_add int_decimal enough_memory [("verbose", "1")]
                    sample_pool)) =
     Some (JInt (_current_mb sample_pool + 100))) /\
  (exists r : response,
      mem_free int_decimal [("verbose", "1")] sample_pool =
        (Ok r, sample_pool) /\
      rejection r = Some InvalidArgument) /\
  snd (mem_set int_decimal second_fails [("verbose", "1")] sample_pool) = [].
Proof.
  apply (missing_parameters_take_defaults int_decimal second_fails
           [("verbose", "1")] sample_pool);
    [ intros v [H | []]; discriminate H
    | intros v [H | []]; discriminate H
    | reflexivity | reflexivity | reflexivity | apply sample_pool_ok ].
Defined.
